(** * finder-py: shortest unique CSS selector of a node

    A shallow embedding of [src/main.py] and the properties of its
    selector synthesis: escaping, candidate generation, the bottom-up
    seed search, the enumeration of candidate paths, the uniqueness
    oracle, the optimizer and the selector renderer. *)

From Stdlib Require Import List String Ascii ZArith NArith QArith Lia Lqa.
From Stdlib Require Import DecimalString Sorted Permutation.
From stdpp Require Import gmap.
Import ListNotations.

Local Open Scope Z_scope.

(** [lia] is to know the quotient and the remainder of a division. *)
Ltac Zify.zify_post_hook ::= Z.to_euclidean_division_equations.

(** ** Python strings

    A Python [str] is a sequence of Unicode code points; [ord] of a
    character is a natural number up to [0x10FFFF].  A character is
    modelled by its code point. *)

Abbreviation char := N (only parsing).
Abbreviation str := (list N) (only parsing).

(** A string literal of the source, as a sequence of code points. *)
Definition lit (s : string) : str :=
  List.map N_of_ascii (list_ascii_of_string s).

Definition str_eqb (a b : str) : bool := bool_decide (a = b).

(** The double quote character, code point 34. *)
Definition dquote : str := [34%N].

(** [s.startswith(prefix)] *)
Fixpoint startswith (s prefix : str) : bool :=
  match prefix, s with
  | [], _ => true
  | p :: prefix', c :: s' => N.eqb p c && startswith s' prefix'
  | _ :: _, [] => false
  end.

(** [str(i)] for an integer, as used by the f-strings of the source. *)
Definition str_of_int (i : Z) : str :=
  lit (NilZero.string_of_int (Z.to_int i)).

(** ** Escaper *)

Module Escaper.

(** One hexadecimal digit, upper case, as [format(d, 'X')] prints it. *)
Definition hex_digit (d : N) : N :=
  if (d <? 10)%N then (48 + d)%N else (55 + d)%N.

(** The digits of [n] in base 16, most significant first, pushed in
    front of [acc].  A digit is always produced, so 0 prints as "0". *)
Fixpoint hex_digits (fuel : nat) (n : N) (acc : str) : str :=
  match fuel with
  | O => acc
  | S fuel' =>
      let acc' := hex_digit (n mod 16)%N :: acc in
      if (n / 16 =? 0)%N then acc' else hex_digits fuel' (n / 16)%N acc'
  end.

(** [format(n, 'X')]: a number of [N.size n] bits has at most that many
    hexadecimal digits. *)
Definition to_HEX (n : N) : str :=
  hex_digits (S (N.to_nat (N.size n))) n [].

(** Zero padding on the left up to a minimum width (the [0w] of a format
    specification); longer texts are left as they are. *)
Definition zfill (w : nat) (s : str) : str :=
  repeat 48%N (w - length s) ++ s.

(** [f'{code_point:04X}'] *)
Definition format_04X (code_point : N) : str :=
  zfill 4 (to_HEX code_point).

Definition printable (code_point : N) : bool :=
  (0x20 <=? code_point)%N && (code_point <=? 0x7E)%N.

(** The body of the loop of [css_escape] for one character. *)
Definition escape_char (c : N) : str :=
  if printable c then [c] else lit "\" ++ format_04X c ++ lit " ".

(** [css_escape(string, is_identifier)]: the loop appends to [output]
    character by character; [is_identifier] is accepted and not used. *)
Definition css_escape (s : str) (is_identifier : bool) : str :=
  fold_left (fun output c => output ++ escape_char c) s [].

(** The value a text of upper-case hexadecimal digits denotes. *)
Definition hex_digit_value (c : N) : N :=
  if (c <? 58)%N then (c - 48)%N else (c - 55)%N.

Definition hex_value (s : str) : N :=
  fold_left (fun v c => (16 * v + hex_digit_value c)%N) s 0%N.

Definition is_HEX_digit (c : N) : bool :=
  ((48 <=? c) && (c <=? 57) || (65 <=? c) && (c <=? 70))%N.

End Escaper.

(** ** Document

    The tree of lxml, restricted to its element and comment nodes.  An
    element has a tag, its attributes in document order (keys unique) and
    its children in order; a comment has no children. *)

Inductive node : Type :=
| Element (tag : str) (attrib : list (str * str)) (children : list node)
| Comment (text : str).

(** A node handle: the child positions (0-based) that lead from the root
    of the tree to the node, innermost first, so that the tail of a handle
    is the handle of the parent and [[]] is the root.  Two handles are the
    same node ([==] of lxml elements) when they are equal. *)
Abbreviation addr := (list nat) (only parsing).

Definition addr_eqb (a b : addr) : bool := bool_decide (a = b).

Module Tree.

Fixpoint node_at (doc : node) (a : addr) : option node :=
  match a with
  | [] => Some doc
  | k :: parent =>
      match node_at doc parent with
      | Some (Element _ _ children) => nth_error children k
      | _ => None
      end
  end.

(** [element.getparent()] *)
Definition getparent (a : addr) : option addr :=
  match a with
  | [] => None
  | _ :: parent => Some parent
  end.

(** The handles of the children of [parent], as [for child in parent]
    yields them: every child, comments included. *)
Definition children_of (doc : node) (parent : addr) : list addr :=
  match node_at doc parent with
  | Some (Element _ _ children) =>
      List.map (fun k => k :: parent) (seq 0 (length children))
  | _ => []
  end.

(** [element.get(key)] *)
Fixpoint get (attrib : list (str * str)) (key : str) : option str :=
  match attrib with
  | [] => None
  | (k, v) :: rest => if str_eqb k key then Some v else get rest key
  end.

(** The characters [str.split()] splits on: those for which
    [str.isspace()] holds. *)
Definition isspace (c : N) : bool :=
  ((9 <=? c) && (c <=? 13) || (28 <=? c) && (c <=? 32)
   || (c =? 0x85) || (c =? 0xA0) || (c =? 0x1680)
   || (0x2000 <=? c) && (c <=? 0x200A)
   || (c =? 0x2028) || (c =? 0x2029) || (c =? 0x202F)
   || (c =? 0x205F) || (c =? 0x3000))%N.

(** [s.split()]: the maximal runs of non-space characters.  [word] is the
    run being read, reversed. *)
Fixpoint split_loop (s : str) (word : str) : list str :=
  match s with
  | [] => match word with [] => [] | _ => [rev word] end
  | c :: s' =>
      if isspace c
      then match word with
           | [] => split_loop s' []
           | _ => rev word :: split_loop s' []
           end
      else split_loop s' (c :: word)
  end.

Definition split (s : str) : list str := split_loop s [].

End Tree.

(** ** Candidates, paths and configuration *)

(** A knot, [{'name': ..., 'penalty': ..., 'level': ...}].  The penalties
    of the source are the integers and the float 0.5; their sums are exact
    in floating point and are modelled by rationals. *)
Record Knot : Type := mkKnot {
  knot_name : str;
  knot_penalty : Q;
  knot_level : Z
}.

Abbreviation Path := (list Knot) (only parsing).

(** The merged configuration [config]. *)
Record Options : Type := mkOptions {
  opt_root : addr;
  opt_id_name : str -> bool;
  opt_class_name : str -> bool;
  opt_tag_name : str -> bool;
  opt_attr : str -> str -> bool;
  opt_seed_min_length : Z;
  opt_optimized_min_length : Z;
  opt_threshold : Z;
  opt_max_number_of_tries : Z
}.

(** The [options] argument of [finder]: a dictionary that may give any of
    the keys. *)
Record PartialOptions : Type := mkPartial {
  given_root : option addr;
  given_id_name : option (str -> bool);
  given_class_name : option (str -> bool);
  given_tag_name : option (str -> bool);
  given_attr : option (str -> str -> bool);
  given_seed_min_length : option Z;
  given_optimized_min_length : option Z;
  given_threshold : option Z;
  given_max_number_of_tries : option Z
}.

Definition no_options : PartialOptions :=
  mkPartial None None None None None None None None None.

(** [defaults]; the root of the tree the input belongs to is [[]]. *)
Definition defaults : Options :=
  {| opt_root := [];
     opt_id_name := fun _ => true;
     opt_class_name := fun _ => true;
     opt_tag_name := fun _ => true;
     opt_attr := fun _ _ => false;
     opt_seed_min_length := 1;
     opt_optimized_min_length := 2;
     opt_threshold := 1000;
     opt_max_number_of_tries := 10000 |}.

(** [{**defaults, **options}] *)
Definition merge (d : Options) (o : PartialOptions) : Options :=
  {| opt_root := default (opt_root d) (given_root o);
     opt_id_name := default (opt_id_name d) (given_id_name o);
     opt_class_name := default (opt_class_name d) (given_class_name o);
     opt_tag_name := default (opt_tag_name d) (given_tag_name o);
     opt_attr := default (opt_attr d) (given_attr o);
     opt_seed_min_length :=
       default (opt_seed_min_length d) (given_seed_min_length o);
     opt_optimized_min_length :=
       default (opt_optimized_min_length d) (given_optimized_min_length o);
     opt_threshold := default (opt_threshold d) (given_threshold o);
     opt_max_number_of_tries :=
       default (opt_max_number_of_tries d) (given_max_number_of_tries o) |}.

(** [len(l)] as a Python integer. *)
Definition len {A} (l : list A) : Z := Z.of_nat (length l).

(** ** Effects

    The source raises exceptions and calls the selector engine
    ([root_document.cssselect]).  A computation takes the trace of the
    engine calls made so far and returns its outcome with the extended
    trace; the trace is kept when an exception is raised. *)

Inductive exn : Type :=
| ValueError (msg : str)
| IndexError
| NoSuchNode.  (* a handle outside the tree; lxml handles are never so *)

Inductive result (A : Type) : Type :=
| Ok (a : A)
| Raise (e : exn).
Arguments Ok {A} a.
Arguments Raise {A} e.

(** A call of the engine, by the function that makes it. *)
Inductive event : Type :=
| QueryUnique (css : str)
| QuerySame (css : str).

Definition M (A : Type) : Type := list event -> result A * list event.


Definition ret {A} (a : A) : M A := fun t => (Ok a, t).
Definition raise {A} (e : exn) : M A := fun t => (Raise e, t).
Definition bind {A B} (m : M A) (f : A -> M B) : M B :=
  fun t => match m t with
           | (Ok a, t') => f a t'
           | (Raise e, t') => (Raise e, t')
           end.
Definition lift {A} (r : result A) : M A := fun t => (r, t).
Definition emit (e : event) : M unit := fun t => (Ok tt, t ++ [e]).

Notation "'let!' x ':=' m 'in' k" := (bind m (fun x => k))
  (at level 10, x pattern, m at level 100, k at level 200,
   format "'[v' 'let!'  x  ':='  m  'in' '/' k ']'").

Module Finder.

(** *** Selector renderer *)

(** [level or 0] *)
Definition or_zero (level : Z) : Z := if level =? 0 then 0 else level.

(** The loop of [selector] over [path[1:]]: [node] is the knot of the
    previous round and [query] the text built so far. *)
Fixpoint selector_loop (rest : Path) (node : Knot) (query : str) : str :=
  match rest with
  | [] => query
  | knot :: rest' =>
      let level := or_zero (knot_level knot) in
      let query' :=
        if knot_level node =? level - 1
        then knot_name knot ++ lit " > " ++ query
        else knot_name knot ++ lit " " ++ query in
      selector_loop rest' knot query'
  end.

(** [selector(path)]; [path[0]] raises on the empty path. *)
Definition selector (path : Path) : result str :=
  match path with
  | [] => Raise IndexError
  | node :: rest => Ok (selector_loop rest node (knot_name node))
  end.

(** [penalty(path)]: [sum] adds from the left, starting with 0. *)
Definition penalty (path : Path) : Q :=
  fold_left Qplus (List.map knot_penalty path) (0 # 1)%Q.

(** The order [sort] sorts by. *)
Definition cheaper (a b : Path) : Prop := Qle (penalty a) (penalty b).

(** *** Candidate generator *)

Definition any : Knot := mkKnot (lit "*") (3 # 1) 0.

Definition nth_child (node : Knot) (i : Z) : Knot :=
  mkKnot (knot_name node ++ lit ":nth-child(" ++ str_of_int i ++ lit ")")
         (Qplus (knot_penalty node) (1 # 1))
         (knot_level node).

Definition dispensable_nth (node : Knot) : bool :=
  negb (str_eqb (knot_name node) (lit "html"))
  && negb (startswith (knot_name node) (lit "#")).

Definition maybe (level : list (option Knot)) : option (list Knot) :=
  match omap (fun item => item) level with
  | [] => None
  | list_ => Some list_
  end.

(** [a or b] where [a] is [None] or a list that is not empty. *)
Definition or_else {A} (a : option A) (b : A) : A :=
  match a with Some x => x | None => b end.

(** [for node in level: node['level'] = i] *)
Definition set_level (i : Z) (node : Knot) : Knot :=
  mkKnot (knot_name node) (knot_penalty node) i.

(** [l[0]] *)
Definition first {A} (l : list A) : result A :=
  match l with
  | [] => Raise IndexError
  | x :: _ => Ok x
  end.

(** Truth of [nth]: an integer other than 0. *)
Definition truthy_nth (nth : option Z) : option Z :=
  match nth with
  | Some n => if n =? 0 then None else Some n
  | None => None
  end.

(** Truth of a path or [None]. *)
Definition truthy (path : option Path) : bool :=
  match path with
  | Some (_ :: _) => true
  | _ => false
  end.

(** *** Combination enumerator *)

Fixpoint combinations (stack : list (list Knot)) (path : Path) : list Path :=
  match stack with
  | [] => [path]
  | level :: stack' =>
      flat_map (fun node => combinations stack' (path ++ [node])) level
  end.

(** [sorted(paths, key=penalty)]: the sort is stable, an element goes in
    front of the first element that does not have a smaller key. *)
Fixpoint insert_sorted (x : Path) (l : list Path) : list Path :=
  match l with
  | [] => [x]
  | y :: l' =>
      if Qle_bool (penalty x) (penalty y) then x :: y :: l'
      else y :: insert_sorted x l'
  end.

Fixpoint sort (paths : list Path) : list Path :=
  match paths with
  | [] => []
  | x :: rest => insert_sorted x (sort rest)
  end.

Section WithDocument.

(** The tree the input belongs to, and the selector engine:
    [cssselect root css] is [root.cssselect(css)], the matched nodes. *)
Variable doc : node.
Variable cssselect : addr -> str -> list addr.

Section WithConfig.

(** The module globals [config] and [root_document] are set once by
    [finder] and read by the helpers; here [config] is passed on. *)
Variable config : Options.

Definition root_document : addr := opt_root config.

(** [id(input)] *)
Definition id (attrib : list (str * str)) : option Knot :=
  match Tree.get attrib (lit "id") with
  | Some element_id =>
      if negb (str_eqb element_id []) && opt_id_name config element_id
      then Some (mkKnot (lit "#" ++ Escaper.css_escape element_id true)
                        (0 # 1) 0)
      else None
  | None => None
  end.

(** [attr(input)] *)
Definition attr (attrib : list (str * str)) : list Knot :=
  let attrs :=
    List.filter (fun a => opt_attr config (fst a) (snd a)) attrib in
  List.map (fun a =>
         mkKnot (lit "[" ++ Escaper.css_escape (fst a) true ++ lit "=" ++ dquote
                 ++ Escaper.css_escape (snd a) false ++ dquote ++ lit "]")
                (1 # 2) 0) attrs.

(** [class_names(input)] *)
Definition class_names (attrib : list (str * str)) : list Knot :=
  let names := Tree.split (default [] (Tree.get attrib (lit "class"))) in
  List.map (fun name =>
         mkKnot (lit "." ++ Escaper.css_escape name true) (1 # 1) 0)
      (List.filter (opt_class_name config) names).

(** [tag_name(input)] *)
Definition tag_name (tag : str) : option Knot :=
  if opt_tag_name config tag then Some (mkKnot tag (2 # 1) 0) else None.

(** The loop of [index] over the children of the parent. *)
Fixpoint index_loop (children : list addr) (input : addr) (i : Z)
  : option Z :=
  match children with
  | [] => None
  | child :: rest =>
      if addr_eqb child input then Some (i + 1)
      else index_loop rest input (i + 1)
  end.

(** [index(input)] *)
Definition index (input : addr) : option Z :=
  match Tree.getparent input with
  | None => None
  | Some parent => index_loop (Tree.children_of doc parent) input 0
  end.

(** The candidates of an element before the search mode is applied:
    the first group that is not empty. *)
Definition candidates (tag : str) (attrib : list (str * str)) : list Knot :=
  or_else (maybe [id attrib])
    (or_else (maybe (List.map Some (attr attrib)))
       (or_else (maybe (List.map Some (class_names attrib)))
          (or_else (maybe [tag_name tag]) [any]))).

(** The branch of [bottom_up_search] on [limit]. *)
Definition limit_level (limit : str) (level : list Knot) (nth : option Z)
  : M (list Knot) :=
  if str_eqb limit (lit "all") then
    match truthy_nth nth with
    | Some n =>
        ret (level ++ List.map (fun node => nth_child node n)
                         (List.filter dispensable_nth level))
    | None => ret level
    end
  else if str_eqb limit (lit "two") then
    let level := firstn 1 level in
    match truthy_nth nth with
    | Some n => let! k := lift (first level) in ret (level ++ [nth_child k n])
    | None => ret level
    end
  else if str_eqb limit (lit "one") then
    let level := firstn 1 level in
    match truthy_nth nth with
    | Some n =>
        let! k := lift (first level) in
        if dispensable_nth k then ret [nth_child k n] else ret level
    | None => ret level
    end
  else if str_eqb limit (lit "none") then
    let level := [any] in
    match truthy_nth nth with
    | Some n => let! k := lift (first level) in ret [nth_child k n]
    | None => ret level
    end
  else ret level.

(** The level of one element: candidates, search mode, level stamp. *)
Definition build_level (limit : str) (current : addr) (i : Z)
    (tag : str) (attrib : list (str * str)) : M (list Knot) :=
  let! level := limit_level limit (candidates tag attrib) (index current) in
  ret (List.map (set_level i) level).

(** *** Uniqueness oracle *)

Definition unique (path : Path) : M bool :=
  let! css := lift (selector path) in
  let! _ := emit (QueryUnique css) in
  let elements := cssselect root_document css in
  if len elements =? 0
  then raise (ValueError
                (lit "Can't select any node with this selector: " ++ css))
  else ret (len elements =? 1).

Definition same (path : Path) (input : addr) : M bool :=
  let! css := lift (selector path) in
  let! _ := emit (QuerySame css) in
  let! element := lift (first (cssselect root_document css)) in
  ret (addr_eqb element input).

(** The path renders to a selector that matches exactly one node: what
    [unique] answers [True] on. *)
Definition uniquely_matched (path : Path) : Prop :=
  exists css n, selector path = Ok css /\ cssselect root_document css = [n].

(** The path renders to a selector that matches the node [input] and no
    other: what [unique] and [same] both answer [True] on. *)
Definition matches_only (input : addr) (path : Path) : Prop :=
  exists css, selector path = Ok css /\ cssselect root_document css = [input].

(** *** Path search *)

(** The loop of [find_unique_path] over the sorted paths. *)
Fixpoint first_unique (paths : list Path) : M (option Path) :=
  match paths with
  | [] => ret None
  | candidate :: rest =>
      let! u := unique candidate in
      if u then ret (Some candidate) else first_unique rest
  end.

Definition find_unique_path (stack : list (list Knot)) : M (option Path) :=
  let paths := sort (combinations stack []) in
  if opt_threshold config <? len paths then ret None
  else first_unique paths.

(** The [while] loop of [bottom_up_search]; it ends with the variables
    [path] and [stack].  [current] is never [None] on entry: the loop goes
    on with the parent while there is one. *)
Fixpoint walk (limit : str) (current : addr) (i : Z)
    (stack : list (list Knot)) (path : option Path)
  : M (option Path * list (list Knot)) :=
  match Tree.node_at doc current with
  | None => raise NoSuchNode
  | Some (Comment _) =>
      match current with
      | [] => ret (path, stack)
      | _ :: parent => walk limit parent (i + 1) stack path
      end
  | Some (Element tag attrib _) =>
      let! level := build_level limit current i tag attrib in
      let stack := stack ++ [level] in
      let! path := (if opt_seed_min_length config <=? len stack
                    then find_unique_path stack else ret path) in
      if (opt_seed_min_length config <=? len stack) && truthy path
      then ret (path, stack)
      else match current with
           | [] => ret (path, stack)
           | _ :: parent => walk limit parent (i + 1) stack path
           end
  end.

Definition bottom_up_search (input : addr) (limit : str)
  : M (option Path) :=
  let! (path, stack) := walk limit input 0 [] None in
  if truthy path then ret path else find_unique_path stack.

(** *** Optimizer *)

(** [scope]: the dictionary with the keys ['counter'] and ['visited'],
    shared by all the calls of one run. *)
Record Scope : Type := mkScope {
  counter : Z;
  visited : gmap (list N) bool
}.

Definition fresh_scope : Scope := mkScope 0 ∅.

(** The [for] loop of [optimize] over the positions [indices];
    [recur] is [optimize] on the shorter path. *)
Fixpoint optimize_loop
    (recur : Path -> Scope -> M (list Path * Scope))
    (path : Path) (input : addr) (indices : list nat)
    (results : list Path) (scope : Scope) : M (list Path * Scope) :=
  match indices with
  | [] => ret (results, scope)
  | i :: rest =>
      if opt_max_number_of_tries config <? counter scope
      then ret (results, scope)
      else
        let scope := mkScope (counter scope + 1) (visited scope) in
        let new_path := firstn i path ++ skipn (i + 1) path in
        let! new_path_key := lift (selector new_path) in
        match visited scope !! new_path_key with
        | Some _ => optimize_loop recur path input rest results scope
        | None =>
            let! u := unique new_path in
            let! ok := (if u then same new_path input else ret false) in
            if ok then
              let results := results ++ [new_path] in
              let scope :=
                mkScope (counter scope)
                        (<[new_path_key := true]> (visited scope)) in
              let! (found, scope) := recur new_path scope in
              optimize_loop recur path input rest (results ++ found) scope
            else optimize_loop recur path input rest results scope
        end
  end.

(** [optimize(path, input, scope)]; every recursive call is on a path one
    knot shorter, [fuel] bounds the depth of the recursion. *)
Fixpoint optimize_from (fuel : nat) (path : Path) (input : addr)
    (scope : Scope) : M (list Path * Scope) :=
  if (2 <? len path) && (opt_optimized_min_length config <? len path)
  then
    match fuel with
    | O => ret ([], scope)
    | S fuel' =>
        optimize_loop (fun p sc => optimize_from fuel' p input sc)
          path input (seq 1 (length path - 2)) [] scope
    end
  else ret ([], scope).





(** [optimize(path, input)] with the default [scope]. *)
Definition optimize (path : Path) (input : addr) : M (list Path) :=
  let! (results, _) := optimize_from (length path) path input fresh_scope in
  ret results.

(** The search of [finder]: the four modes, the first that gives a
    path. *)
Definition seed_search (input : addr) : M (option Path) :=
  let! path := bottom_up_search input (lit "all") in
  if truthy path then ret path else
  let! path := bottom_up_search input (lit "two") in
  if truthy path then ret path else
  let! path := bottom_up_search input (lit "one") in
  if truthy path then ret path else
  bottom_up_search input (lit "none").

(** [finder] after the check of the tag and the set-up of [config]. *)
Definition find (input : addr) : M str :=
  let! path := seed_search input in
  match path with
  | Some ((_ :: _) as path) =>
      let! optimized := optimize path input in
      let path := match sort optimized with
                  | best :: _ => best
                  | [] => path
                  end in
      lift (selector path)
  | _ => raise (ValueError (lit "Selector was not found."))
  end.

End WithConfig.

(** [finder(input, options)] *)
Definition finder (input : addr) (options : PartialOptions) : M str :=
  match Tree.node_at doc input with
  | None => raise NoSuchNode
  | Some n =>
      if match n with
         | Element tag _ _ => str_eqb tag (lit "html")
         | Comment _ => false
         end
      then ret (lit "html")
      else find (merge defaults options) input
  end.

End WithDocument.

End Finder.

(** ** The renderer as the specification words it

    The text starts with the last (outermost) knot; every further knot,
    going toward the target, is joined to the text built so far: by the
    child combinator when the knot before it (the more root-ward one) has a
    level one greater than its own, by the descendant combinator
    otherwise. *)

Module Spec.

Definition combinator (rootward targetward : Knot) : str :=
  if knot_level rootward =? knot_level targetward + 1
  then lit " > " else lit " ".

Fixpoint join_toward_target (rest : Path) (rootward : Knot) (text : str)
  : str :=
  match rest with
  | [] => text
  | knot :: rest' =>
      join_toward_target rest' knot
        (text ++ combinator rootward knot ++ knot_name knot)
  end.

Definition selector_spec (path : Path) : option str :=
  match rev path with
  | [] => None
  | outermost :: rest =>
      Some (join_toward_target rest outermost (knot_name outermost))
  end.

End Spec.

(** ** Documents and engines of the examples *)

Module Examples.

Definition E (tag : string) (attrib : list (string * string))
    (children : list node) : node :=
  Element (lit tag) (List.map (fun a => (lit (fst a), lit (snd a))) attrib)
          children.

(** An engine given by the answers to the selectors an example queries;
    any other selector matches nothing. *)
Definition engine (answers : list (string * list addr))
    (root : addr) (css : str) : list addr :=
  match List.find (fun a => str_eqb (lit (fst a)) css) answers with
  | Some a => snd a
  | None => []
  end.

(** [<html><body><!--note--></body></html>]; the comment is the first
    child of [body]. *)
Definition doc_comment : node :=
  E "html" [] [E "body" [] [Comment (lit "note")]].

Definition the_comment : addr := [0; 0]%nat.
Definition the_body : addr := [0]%nat.

Definition engine_comment : addr -> str -> list addr :=
  engine [("body"%string, [the_body])].

(** [<div id="a"></div>], a tree whose root element is a [div]. *)
Definition doc_div : node := E "div" [("id", "a")%string] [].

Definition engine_div : addr -> str -> list addr :=
  engine [("#a"%string, [[]])].

(** [<html><body><div id="a"></div></body></html>] *)
Definition doc_id : node :=
  E "html" [] [E "body" [] [E "div" [("id", "a")%string] []]].

Definition the_div : addr := [0; 0]%nat.

Definition engine_id : addr -> str -> list addr :=
  engine [("#a"%string, [the_div])].

(** [<html><body><div class="d">
       <section class="c"><p class="b"><span/></p></section>
       <section class="k"><p class="j"><span/></p></section>
     </div></body></html>]
    The target is the first [span]. *)
Definition doc_spans : node :=
  E "html" []
    [E "body" []
       [E "div" [("class", "d")%string]
          [E "section" [("class", "c")%string]
             [E "p" [("class", "b")%string] [E "span" [] []]];
           E "section" [("class", "k")%string]
             [E "p" [("class", "j")%string] [E "span" [] []]]]]].

Definition span1 : addr := [0; 0; 0; 0; 0]%nat.
Definition span2 : addr := [0; 0; 1; 0; 0]%nat.

Definition engine_spans : addr -> str -> list addr :=
  engine [(".d > .c > .b > span"%string, [span1]);
          (".d > .c span"%string, [span1]);
          (".d .b > span"%string, [span1]);
          (".d span"%string, [span1; span2])].

(** [<html><body><ul><!--first--><li/></ul></body></html>] *)
Definition doc_list : node :=
  E "html" []
    [E "body" [] [E "ul" [] [Comment (lit "first"); E "li" [] []]]].

Definition the_ul : addr := [0; 0]%nat.
Definition the_li : addr := [1; 0; 0]%nat.

(** The seed path of the first [span]: tag, then the class of each
    ancestor up to the [div]. *)
Definition seed_spans : list Knot :=
  [mkKnot (lit "span") (2 # 1) 0; mkKnot (lit ".b") (1 # 1) 1;
   mkKnot (lit ".c") (1 # 1) 2; mkKnot (lit ".d") (1 # 1) 3].

(** Two candidates of one level, for a stack with more than one path. *)
Definition two_candidates : list (list Knot) :=
  [[mkKnot (lit "li") (2 # 1) 0; mkKnot (lit "li:nth-child(1)") (3 # 1) 0]].

(** [<html><body><ul><!--first--><li/><li/><li/></ul></body></html>]
    The target is the second [li]; [li:nth-child(3)] matches the third
    one, the third element among the children of [ul]. *)
Definition doc_items : node :=
  E "html" []
    [E "body" []
       [E "ul" []
          [Comment (lit "first"); E "li" [] []; E "li" [] []; E "li" [] []]]].

Definition item1 : addr := [1; 0; 0]%nat.
Definition item2 : addr := [2; 0; 0]%nat.
Definition item3 : addr := [3; 0; 0]%nat.

Definition engine_items : addr -> str -> list addr :=
  engine [("li"%string, [item1; item2; item3]);
          ("li:nth-child(3)"%string, [item3])].


(** [<html><body><div id="a.b"></div></body></html>]; the selector
    [#a.b] asks for the id [a] and the class [b] and matches nothing. *)
Definition doc_dotted : node :=
  E "html" [] [E "body" [] [E "div" [("id", "a.b")%string] []]].

Definition engine_dotted : addr -> str -> list addr := engine [].

(** A stack with the one path [#a]. *)
Definition one_candidate : list (list Knot) :=
  [[mkKnot (lit "#a") (0 # 1) 0]].

Definition with_threshold (n : Z) : PartialOptions :=
  mkPartial None None None None None None None (Some n) None.

Definition with_seed_min_length (n : Z) : PartialOptions :=
  mkPartial None None None None None (Some n) None None None.

Definition with_seed_and_tries (seed tries : Z) : PartialOptions :=
  mkPartial None None None None None (Some seed) None None (Some tries).

End Examples.

(** ** Statements of further properties *)

(** ** Statements about the search *)

Module Search.

(** [level] is the level the search builds, in the mode [limit], for the
    element [current] at the distance [i] from the input. *)
Definition level_built (doc : node) (config : Options) (limit : str)
    (current : addr) (i : Z) (level : list Knot) : Prop :=
  exists tag attrib children,
    Tree.node_at doc current = Some (Element tag attrib children)
    /\ forall t,
         Finder.build_level doc config limit current i tag attrib t
         = (Ok level, t).

(** The exception of [unique]: the selector [css] matches nothing. *)
Definition selects_nothing (cssselect : addr -> str -> list addr)
    (config : Options) (e : exn) : Prop :=
  exists css,
    e = ValueError (lit "Can't select any node with this selector: " ++ css)
    /\ cssselect (Finder.root_document config) css = [].

End Search.

Module Chain.

(** The knots of a path joined by child combinators, outermost first. *)
Fixpoint child_chain (path : Path) : str :=
  match path with
  | [] => []
  | [target] => knot_name target
  | knot :: rest => child_chain rest ++ lit " > " ++ knot_name knot
  end.

End Chain.

Module Shortening.

(** [p] is [path] with knots taken out of its inside: the knots of [p]
    are knots of [path] in their order, the first and the last knot are
    those of [path], and [p] is shorter. *)
Definition shortening (path p : Path) : Prop :=
  sublist p path
  /\ head p = head path
  /\ last p = last path
  /\ (length p < length path)%nat.

(** How often a trace has [unique] query the engine, whatever the
    text. *)
Definition unique_query_total (t : list event) : Z :=
  len (List.filter (fun e => match e with
                             | QueryUnique _ => true
                             | QuerySame _ => false
                             end) t).

(** The tries the optimizer has left in the scope [scope]. *)
Definition tries_left (config : Options) (scope : Finder.Scope) : Z :=
  Z.max 0 (opt_max_number_of_tries config + 1 - Finder.counter scope).

(** [p] is a shortening of [path] that the optimizer may return: it has
    two knots at least, and not fewer than [optimized_min_length]. *)
Definition kept (config : Options) (path p : Path) : Prop :=
  shortening path p
  /\ 2 <= len p
  /\ opt_optimized_min_length config <= len p.

(** A computation started in [scope] has [unique] query the engine no
    more often than tries are left, and leaves as many tries fewer. *)
Definition within_budget (config : Options)
    (m : M (list Path * Finder.Scope)) (scope : Finder.Scope) : Prop :=
  forall t r t',
    m t = (r, t') ->
    unique_query_total t' <= unique_query_total t + tries_left config scope
    /\ forall found scope',
         r = Ok (found, scope') ->
         unique_query_total t' + tries_left config scope'
         <= unique_query_total t + tries_left config scope.

End Shortening.

Module Distinct.

(** [keys] are the rendered texts of [found], in order, no text twice;
    none was a key of [before] and each is a key of [after]. *)
Definition fresh_texts (before after : gmap (list N) bool)
    (found : list Path) (keys : list str) : Prop :=
  Forall2 (fun p key => Finder.selector p = Ok key) found keys
  /\ NoDup keys
  /\ List.Forall (fun key => before !! key = None /\ after !! key <> None)
       keys.

(** The keys of [before] are keys of [after]. *)
Definition grows (before after : gmap (list N) bool) : Prop :=
  forall key, before !! key <> None -> after !! key <> None.

(** A computation started in [scope] returns paths with fresh texts and
    only adds to [visited]. *)
Definition returns_fresh (m : M (list Path * Finder.Scope))
    (scope : Finder.Scope) : Prop :=
  forall t found scope' t',
    m t = (Ok (found, scope'), t') ->
    grows (Finder.visited scope) (Finder.visited scope')
    /\ exists keys,
         fresh_texts (Finder.visited scope) (Finder.visited scope')
           found keys.

End Distinct.

Module Shift.

(** The knot one level further from the input. *)
Definition raise_level (k : Knot) : Knot :=
  mkKnot (knot_name k) (knot_penalty k) (knot_level k + 1).

(** The outcome of a search with every level of the path one higher. *)
Definition raise_path (r : result (option Path) * list event)
  : result (option Path) * list event :=
  match r with
  | (Ok (Some p), t) => (Ok (Some (List.map raise_level p)), t)
  | other => other
  end.

End Shift.

(** * Properties *)

Import Finder.

(** ** Escaper *)

Section EscaperFacts.
Import Escaper.

Lemma hex_digits_acc fuel : forall n acc,
  hex_digits fuel n acc = hex_digits fuel n [] ++ acc.
Proof.
  induction fuel as [|fuel IH]; intros n acc; simpl; [reflexivity|].
  destruct (n / 16 =? 0)%N; [reflexivity|].
  rewrite IH, (IH _ [_]), <- app_assoc. reflexivity.
Qed.

Lemma hex_value_snoc l d :
  hex_value (l ++ [d]) = (16 * hex_value l + hex_digit_value d)%N.
Proof. unfold hex_value. rewrite fold_left_app. reflexivity. Qed.

Lemma hex_digit_value_digit d :
  (d < 16)%N -> hex_digit_value (hex_digit d) = d.
Proof.
  intros Hd. unfold hex_digit, hex_digit_value.
  destruct (d <? 10)%N eqn:E.
  - apply N.ltb_lt in E.
    replace (48 + d <? 58)%N with true by (symmetry; apply N.ltb_lt; lia). lia.
  - apply N.ltb_ge in E.
    replace (55 + d <? 58)%N with false by (symmetry; apply N.ltb_ge; lia). lia.
Qed.

Lemma hex_digit_is_HEX d : (d < 16)%N -> is_HEX_digit (hex_digit d) = true.
Proof.
  intros Hd. unfold hex_digit, is_HEX_digit.
  destruct (d <? 10)%N eqn:E.
  - apply N.ltb_lt in E.
    replace (48 <=? 48 + d)%N with true by (symmetry; apply N.leb_le; lia).
    replace (48 + d <=? 57)%N with true by (symmetry; apply N.leb_le; lia).
    reflexivity.
  - apply N.ltb_ge in E.
    replace (65 <=? 55 + d)%N with true by (symmetry; apply N.leb_le; lia).
    replace (55 + d <=? 70)%N with true by (symmetry; apply N.leb_le; lia).
    apply orb_true_r.
Qed.

Lemma hex_digits_value fuel : forall n,
  (n < 16 ^ N.of_nat fuel)%N -> (0 < fuel)%nat ->
  hex_value (hex_digits fuel n []) = n.
Proof.
  induction fuel as [|fuel IH]; intros n Hn Hf; [lia|].
  simpl hex_digits.
  assert (Hm : (n mod 16 < 16)%N) by (apply N.mod_lt; lia).
  destruct (n / 16 =? 0)%N eqn:E.
  - apply N.eqb_eq in E. unfold hex_value; simpl.
    rewrite hex_digit_value_digit by assumption.
    pose proof (N.div_mod n 16 ltac:(lia)). lia.
  - apply N.eqb_neq in E.
    rewrite hex_digits_acc, hex_value_snoc, hex_digit_value_digit by assumption.
    assert (Hq : (n / 16 < 16 ^ N.of_nat fuel)%N).
    { apply N.Div0.div_lt_upper_bound.
      rewrite Nat2N.inj_succ, N.pow_succ_r' in Hn. exact Hn. }
    rewrite IH; [|exact Hq|].
    + pose proof (N.div_mod n 16 ltac:(lia)). lia.
    + destruct fuel; [|lia]. change (16 ^ N.of_nat 0)%N with 1%N in Hq. lia.
Qed.

Lemma hex_digits_all_HEX fuel : forall n acc,
  forallb is_HEX_digit acc = true ->
  forallb is_HEX_digit (hex_digits fuel n acc) = true.
Proof.
  induction fuel as [|fuel IH]; intros n acc Hacc; simpl; [exact Hacc|].
  assert (Hd : forallb is_HEX_digit (hex_digit (n mod 16) :: acc) = true).
  { simpl. rewrite hex_digit_is_HEX, Hacc; [reflexivity|apply N.mod_lt; lia]. }
  destruct (n / 16 =? 0)%N; [exact Hd | apply IH, Hd].
Qed.

Lemma hex_digits_length_le k : forall fuel n,
  (n < 16 ^ N.of_nat k)%N -> (1 <= k)%nat ->
  (length (hex_digits fuel n []) <= k)%nat.
Proof.
  induction k as [|k IH]; intros fuel n Hn Hk; [lia|].
  destruct fuel as [|fuel]; [simpl; lia|]. simpl.
  destruct (n / 16 =? 0)%N eqn:E; [simpl; lia|].
  apply N.eqb_neq in E.
  rewrite hex_digits_acc, length_app. simpl.
  assert (Hq : (n / 16 < 16 ^ N.of_nat k)%N).
  { apply N.Div0.div_lt_upper_bound.
    rewrite Nat2N.inj_succ, N.pow_succ_r' in Hn. exact Hn. }
  assert (1 <= k)%nat.
  { destruct k; [|lia]. change (16 ^ N.of_nat 0)%N with 1%N in Hq. lia. }
  specialize (IH fuel (n / 16)%N Hq ltac:(lia)). lia.
Qed.

Lemma hex_digits_length_gt k : forall fuel n,
  (16 ^ N.of_nat k <= n)%N -> (k < fuel)%nat ->
  (k < length (hex_digits fuel n []))%nat.
Proof.
  induction k as [|k IH]; intros fuel n Hn Hk.
  - destruct fuel as [|fuel]; [lia|]. simpl.
    destruct (n / 16 =? 0)%N; [simpl; lia|].
    rewrite hex_digits_acc, length_app. simpl. lia.
  - destruct fuel as [|fuel]; [lia|]. simpl.
    rewrite Nat2N.inj_succ, N.pow_succ_r' in Hn.
    assert (Hq : (16 ^ N.of_nat k <= n / 16)%N).
    { apply N.div_le_lower_bound; lia. }
    assert (Hpos : (0 < 16 ^ N.of_nat k)%N)
      by (apply N.neq_0_lt_0, N.pow_nonzero; lia).
    destruct (n / 16 =? 0)%N eqn:E; [apply N.eqb_eq in E; lia|].
    rewrite hex_digits_acc, length_app. simpl.
    specialize (IH fuel (n / 16)%N Hq ltac:(lia)). lia.
Qed.

Lemma to_HEX_fuel n : (n < 16 ^ N.of_nat (S (N.to_nat (N.size n))))%N.
Proof.
  rewrite Nat2N.inj_succ, N2Nat.id.
  pose proof (N.size_gt n) as H.
  assert (2 ^ N.size n <= 16 ^ N.succ (N.size n))%N; [|lia].
  transitivity (16 ^ N.size n)%N.
  - apply N.pow_le_mono_l. lia.
  - apply N.pow_le_mono_r; lia.
Qed.


Lemma css_escape_loop s : forall acc,
  fold_left (fun output c => output ++ escape_char c) s acc
  = acc ++ flat_map escape_char s.
Proof.
  induction s as [|c s IH]; intros acc; simpl.
  - rewrite app_nil_r. reflexivity.
  - rewrite IH, <- app_assoc. reflexivity.
Qed.

Lemma css_escape_flat_map s is_identifier :
  css_escape s is_identifier = flat_map escape_char s.
Proof. unfold css_escape. apply css_escape_loop. Qed.

Lemma hex_value_zeros k l : hex_value (repeat 48%N k ++ l) = hex_value l.
Proof.
  unfold hex_value. rewrite fold_left_app. f_equal.
  induction k as [|k IH]; [reflexivity|]. exact IH.
Qed.

Lemma zeros_all_HEX k l :
  forallb is_HEX_digit l = true ->
  forallb is_HEX_digit (repeat 48%N k ++ l) = true.
Proof. intros H. induction k as [|k IH]; [exact H|exact IH]. Qed.

Lemma size_above n k : (2 ^ k <= n)%N -> (k < N.size n)%N.
Proof.
  intros H. pose proof (N.size_gt n) as Hs.
  destruct (N.lt_ge_cases k (N.size n)) as [Hlt|Hge]; [exact Hlt|].
  exfalso. apply (N.pow_le_mono_r 2) in Hge; lia.
Qed.

Lemma format_04X_digits c :
  forallb is_HEX_digit (format_04X c) = true
  /\ hex_value (format_04X c) = c
  /\ (4 <= length (format_04X c))%nat
  /\ (length (format_04X c) = 4%nat <-> (c <= 0xFFFF)%N).
Proof.
  unfold format_04X, zfill, to_HEX. repeat split.
  - apply zeros_all_HEX, hex_digits_all_HEX. reflexivity.
  - rewrite hex_value_zeros. apply hex_digits_value; [apply to_HEX_fuel|lia].
  - rewrite length_app, repeat_length. lia.
  - rewrite length_app, repeat_length. intros Hlen.
    destruct (N.le_gt_cases c 0xFFFF) as [Hle|Hgt]; [exact Hle|exfalso].
    assert (H16 : (16 ^ N.of_nat 4 <= c)%N)
      by (change (16 ^ N.of_nat 4)%N with 65536%N; lia).
    assert (Hsize : (16 < N.size c)%N)
      by (apply size_above; change (2 ^ 16)%N with 65536%N; lia).
    pose proof (hex_digits_length_gt 4 (S (N.to_nat
        (N.size c))) c H16 ltac:(lia)).
    lia.
  - intros Hle. rewrite length_app, repeat_length.
    assert (H16 : (c < 16 ^ N.of_nat 4)%N)
      by (change (16 ^ N.of_nat 4)%N with 65536%N; lia).
    pose proof (hex_digits_length_le 4 (S (N.to_nat
        (N.size c))) c H16 ltac:(lia)).
    lia.
Qed.

(** C9, as amended.  [css_escape] rewrites its argument character by
    character.  A character in the printable range 0x20-0x7E stays as it
    is, so a printable string is escaped to itself.  Any other character
    becomes a backslash, the upper-case hexadecimal digits of its code
    point and a space; the digits are padded with zeros to a width of 4 at
    least, and are exactly 4 only for code points up to 0xFFFF.  Code
    point 7 becomes backslash, 0007, space. *)
Theorem css_escape_characters (s : list N) (is_identifier : bool) :
  css_escape s is_identifier = flat_map escape_char s
  /\ (forallb printable s = true -> css_escape s is_identifier = s)
  /\ (forall c, printable c = true -> escape_char c = [c])
  /\ (forall c, printable c = false ->
        exists digits,
          escape_char c = lit "\" ++ digits ++ lit " "
          /\ forallb is_HEX_digit digits = true
          /\ hex_value digits = c
          /\ (4 <= length digits)%nat
          /\ (length digits = 4%nat <-> (c <= 0xFFFF)%N))
  /\ css_escape [7%N] is_identifier = lit "\0007 ".
Proof.
  split; [apply css_escape_flat_map|].
  split; [|split; [|split; [|reflexivity]]].
  - rewrite css_escape_flat_map.
    induction s as [|c s IH]; [reflexivity|]. cbn [flat_map forallb].
    intros H. apply andb_true_iff in H as [Hc Hs].
    rewrite IH by exact Hs. unfold escape_char. rewrite Hc. reflexivity.
  - intros c Hc. unfold escape_char. rewrite Hc. reflexivity.
  - intros c Hc. exists (format_04X c). unfold escape_char. rewrite Hc.
    split; [reflexivity|]. apply format_04X_digits.
Qed.

(** C9, as stated, fails above 0xFFFF: the code point 0x1F600 is escaped
    with five hexadecimal digits, which no text of a backslash, four
    characters and a space equals. *)
Lemma css_escape_astral :
  css_escape [0x1F600%N] false = lit "\1F600 "
  /\ ~ exists d1 d2 d3 d4,
        css_escape [0x1F600%N] false = lit "\" ++ [d1; d2; d3; d4] ++ lit " ".
Proof.
  split; [vm_compute; reflexivity|].
  intros (d1 & d2 & d3 & d4 & H). vm_compute in H. discriminate.
Qed.

End EscaperFacts.

(** ** Renderer *)

Lemma selector_loop_app rest : forall node q1 q2,
  selector_loop rest node (q1 ++ q2) = selector_loop rest node q1 ++ q2.
Proof.
  induction rest as [|knot rest IH]; intros node q1 q2; simpl; [reflexivity|].
  destruct (knot_level node =? _); rewrite <- IH, <- !app_assoc; reflexivity.
Qed.

Lemma combinator_code node knot :
  (if knot_level node =? or_zero (knot_level knot) - 1
   then lit " > " else lit " ") = Spec.combinator knot node.
Proof.
  unfold Spec.combinator, or_zero.
  destruct (knot_level knot =? 0) eqn:E0;
    destruct (knot_level node =? _) eqn:E1;
    destruct (knot_level knot =? knot_level node + 1) eqn:E2;
    try reflexivity; exfalso; lia.
Qed.

Lemma selector_step a b rest :
  selector (a :: b :: rest) =
  match selector (b :: rest) with
  | Ok text => Ok (text ++ Spec.combinator b a ++ knot_name a)
  | Raise e => Raise e
  end.
Proof.
  simpl. f_equal. rewrite <- selector_loop_app. f_equal.
  rewrite <- combinator_code.
  destruct (knot_level a =? _); reflexivity.
Qed.

Lemma last_cons {A} (l : list A) : forall x d,
  List.last (x :: l) d = List.last l x.
Proof.
  induction l as [|y l IH]; intros x d; [reflexivity|].
  change (List.last (x :: y :: l) d) with (List.last (y :: l) d).
  rewrite !IH. reflexivity.
Qed.

Lemma join_toward_target_snoc inner : forall outer text a,
  Spec.join_toward_target (inner ++ [a]) outer text =
  Spec.join_toward_target inner outer text
    ++ Spec.combinator (List.last inner outer) a ++ knot_name a.
Proof.
  induction inner as [|k inner IH]; intros outer text a; [reflexivity|].
  cbn [app Spec.join_toward_target]. rewrite IH, last_cons. reflexivity.
Qed.

Lemma selector_spec_step a b rest :
  Spec.selector_spec (a :: b :: rest) =
  match Spec.selector_spec (b :: rest) with
  | Some text => Some (text ++ Spec.combinator b a ++ knot_name a)
  | None => None
  end.
Proof.
  unfold Spec.selector_spec.
  change (rev (a :: b :: rest)) with (rev (b :: rest) ++ [a]).
  assert (Hlast : forall d, List.last (rev (b :: rest)) d = b).
  { intros d. simpl. apply last_last. }
  destruct (rev (b :: rest)) as [|outer inner] eqn:E.
  - apply (f_equal (@length _)) in E. rewrite length_rev in E. discriminate.
  - cbn [app]. rewrite join_toward_target_snoc. do 3 f_equal.
    rewrite <- (Hlast outer), last_cons. reflexivity.
Qed.

(** C7.  [selector] gives the text the specification describes: the
    text of the last (outermost) knot first, and each further knot toward
    the target joined by the child combinator when the more root-ward knot
    of the pair has a level one greater, by a space otherwise; the empty
    path raises.  Adjacent pair by adjacent pair: the selector of
    [a :: b :: rest] is the selector of [b :: rest], the combinator chosen
    by the levels of [b] and [a], and the name of [a]. *)
Theorem selector_renders_as_specified (path : list Knot) :
  selector path =
    match Spec.selector_spec path with
    | Some text => Ok text
    | None => Raise IndexError
    end
  /\ forall a b rest,
       selector (a :: b :: rest) =
       match selector (b :: rest) with
       | Ok text =>
           Ok (text
               ++ (if knot_level b =? knot_level a + 1
                   then lit " > " else lit " ")
               ++ knot_name a)
       | Raise e => Raise e
       end.
Proof.
  split; [|intros; apply selector_step].
  induction path as [|a [|b rest] IH]; [reflexivity..|].
  rewrite selector_step, selector_spec_step, IH.
  destruct (Spec.selector_spec (b :: rest)); reflexivity.
Qed.

(** ** Index *)

Lemma index_loop_children parent j : forall m s i,
  (s <= j < s + m)%nat ->
  index_loop (List.map (fun k => k :: parent) (seq s m)) (j :: parent) i
  = Some (i + Z.of_nat (j - s) + 1).
Proof.
  induction m as [|m IH]; intros s i Hj; [lia|].
  simpl. unfold addr_eqb. case_bool_decide as E.
  - injection E as ->. f_equal. lia.
  - rewrite IH by (assert (s <> j) by congruence; lia).
    f_equal. assert (s <> j) by congruence. lia.
Qed.

Section IndexFacts.
Variable doc : node.

Lemma index_ge_1_loop children input : forall i n,
  0 <= i -> index_loop children input i = Some n -> 1 <= n.
Proof.
  induction children as [|c children IH]; intros i n Hi; simpl; [discriminate|].
  destruct (addr_eqb c input).
  - intros [= <-]. lia.
  - apply IH. lia.
Qed.

Lemma index_ge_1 input n : index doc input = Some n -> 1 <= n.
Proof.
  unfold index. destruct (Tree.getparent input); [|discriminate].
  apply index_ge_1_loop. lia.
Qed.

Lemma truthy_nth_index input : truthy_nth (index doc input) = index doc input.
Proof.
  destruct (index doc input) as [n|] eqn:E; [|reflexivity].
  apply index_ge_1 in E. simpl.
  destruct (n =? 0) eqn:E0; [lia|reflexivity].
Qed.

(** C10.  For the child of [parent] that has the siblings [before] in
    front of it, elements and comments alike, [index] is 1 plus the number
    of those siblings.  That number is the position every search mode
    builds the level of the node with, and the ordinal [nth_child] writes
    into the [:nth-child] qualifier (shown on the mode "none", whose level
    is the qualified wildcard alone). *)
Theorem index_counts_every_sibling
    (parent : list nat) (tag : list N) (attrib : list (list N * list N))
    (before : list node) (x : node) (after : list node)
    (i : Z) (tag' : list N) (attrib' : list (list N * list N))
    (config : Options) (t : list event) :
  Tree.node_at doc parent = Some (Element tag attrib (before ++ x :: after)) ->
  Tree.node_at doc (length before :: parent) = Some x
  /\ index doc (length before :: parent) = Some (1 + len before)
  /\ (forall limit level,
        limit_level limit level (index doc (length before :: parent))
        = limit_level limit level (Some (1 + len before)))
  /\ (forall node,
        knot_name (nth_child node (1 + len before))
        = knot_name node ++ lit ":nth-child("
          ++ str_of_int (1 + len before) ++ lit ")")
  /\ build_level doc config (lit "none") (length before :: parent) i
       tag' attrib' t
     = (Ok [mkKnot (lit "*:nth-child(" ++ str_of_int (1 + len before)
                    ++ lit ")")
                   (Qplus (3 # 1) (1 # 1)) i], t).
Proof.
  intros Hparent.
  assert (Hidx : index doc (length before :: parent) = Some (1 + len before)).
  { unfold index, Tree.children_of. simpl. rewrite Hparent.
    rewrite index_loop_children by (rewrite length_app; simpl; lia).
    f_equal. unfold len. lia. }
  split; [|split; [exact Hidx|split; [|split]]].
  - simpl. rewrite Hparent. rewrite nth_error_app2 by lia.
    rewrite Nat.sub_diag. reflexivity.
  - intros limit level. rewrite Hidx. reflexivity.
  - reflexivity.
  - unfold build_level, limit_level. rewrite truthy_nth_index, Hidx.
    reflexivity.
Qed.

End IndexFacts.

(** ** Combination enumerator and [sort] *)

Lemma insert_sorted_perm x l : Permutation (insert_sorted x l) (x :: l).
Proof.
  induction l as [|y l IH]; simpl; [reflexivity|].
  destruct (Qle_bool _ _); [reflexivity|].
  rewrite IH. apply perm_swap.
Qed.

Lemma sort_perm l : Permutation (sort l) l.
Proof.
  induction l as [|x l IH]; simpl; [reflexivity|].
  rewrite insert_sorted_perm, IH. reflexivity.
Qed.

Lemma sort_length l : length (sort l) = length l.
Proof. apply Permutation_length, sort_perm. Qed.

Lemma insert_sorted_sorted x l :
  StronglySorted cheaper l -> StronglySorted cheaper (insert_sorted x l).
Proof.
  induction 1 as [|y l Hl IH Hy]; simpl.
  - repeat constructor.
  - destruct (Qle_bool (penalty x) (penalty y)) eqn:E.
    + apply Qle_bool_iff in E.
      constructor; [constructor; assumption|].
      constructor; [exact E|].
      eapply List.Forall_impl; [|exact Hy].
      intros z Hz. unfold cheaper in *. eapply Qle_trans; eassumption.
    + assert (Hyx : cheaper y x).
      { unfold cheaper. apply Qlt_le_weak, Qnot_le_lt.
        intros H. apply Qle_bool_iff in H. congruence. }
      constructor; [exact IH|].
      eapply Permutation_Forall; [symmetry; apply insert_sorted_perm|].
      constructor; assumption.
Qed.

Lemma sort_sorted l : StronglySorted cheaper (sort l).
Proof.
  induction l as [|x l IH]; simpl; [constructor|].
  apply insert_sorted_sorted, IH.
Qed.


Lemma combinations_In stack : forall acc p,
  In p (combinations stack acc) <->
  exists q, p = acc ++ q /\ Forall2 (fun k level => In k level) q stack.
Proof.
  induction stack as [|level stack IH]; intros acc p; simpl.
  - split.
    + intros [<-|[]]. exists []. rewrite app_nil_r.
      split; [reflexivity|constructor].
    + intros (q & -> & Hq). inversion Hq. left. rewrite app_nil_r. reflexivity.
  - rewrite in_flat_map. split.
    + intros (k & Hk & Hp). apply IH in Hp as (q & -> & Hq).
      exists (k :: q). rewrite <- app_assoc. split; [reflexivity|].
      constructor; assumption.
    + intros (q & -> & Hq). inversion Hq as [|k level' q' stack' Hk Hq']; subst.
      exists k. split; [exact Hk|]. apply IH. exists q'.
      rewrite <- app_assoc. split; [reflexivity|assumption].
Qed.


(** ** Uniqueness oracle and [find_unique_path] *)

Section Oracle.
Variable doc : node.
Variable cssselect : list nat -> list N -> list (list nat).
Variable config : Options.


Lemma unique_eq path t :
  unique cssselect config path t =
  match selector path with
  | Raise e => (Raise e, t)
  | Ok css =>
      (match cssselect (root_document config) css with
       | [] => Raise (ValueError
                 (lit "Can't select any node with this selector: " ++ css))
       | [_] => Ok true
       | _ => Ok false
       end, t ++ [QueryUnique css])
  end.
Proof.
  unfold Finder.unique, bind, lift, emit, ret, raise.
  destruct (selector path) as [css|e]; [|reflexivity].
  destruct (cssselect _ css) as [|n [|m l]]; try reflexivity.
  unfold len. change (length (n :: m :: l)) with (S (S (length l))).
  destruct (Z.eqb_spec (Z.of_nat (S (S (length l)))) 0); [lia|].
  destruct (Z.eqb_spec (Z.of_nat (S (S (length l)))) 1); [lia|]. reflexivity.
Qed.

Lemma unique_true path t t' :
  unique cssselect config path t = (Ok true, t') ->
  uniquely_matched cssselect config path /\
  exists css, selector path = Ok css /\ t' = t ++ [QueryUnique css].
Proof.
  rewrite unique_eq. unfold Finder.uniquely_matched.
  destruct (selector path) as [css|e]; [|discriminate].
  destruct (cssselect _ css) as [|n [|m l]] eqn:E; intros [= <-].
  split; eauto.
Qed.

Lemma unique_false path t t' :
  unique cssselect config path t = (Ok false, t') ->
  ~ uniquely_matched cssselect config path /\
  exists css, selector path = Ok css /\ t' = t ++ [QueryUnique css].
Proof.
  rewrite unique_eq. unfold Finder.uniquely_matched.
  destruct (selector path) as [css|e]; [|discriminate].
  destruct (cssselect _ css) as [|n [|m l]] eqn:E; intros [= <-].
  split; [|eauto].
  intros (css' & n' & [= <-] & H). congruence.
Qed.

Lemma first_unique_Some paths : forall t p t',
  first_unique cssselect config paths t = (Ok (Some p), t') ->
  exists before after csss,
    paths = before ++ p :: after
    /\ Forall (fun q => ~ uniquely_matched cssselect config q) before
    /\ uniquely_matched cssselect config p
    /\ Forall2 (fun q css => selector q = Ok css) (before ++ [p]) csss
    /\ t' = t ++ List.map QueryUnique csss.
Proof.
  induction paths as [|c paths IH]; intros t p t'; simpl.
  - discriminate.
  - unfold bind at 1.
    destruct (unique cssselect config c t) as [[[]|e] t1] eqn:Eu.
    + intros [= <- <-]. apply unique_true in Eu as (Hu & css & Hs & ->).
      exists [], paths, [css]. repeat split; auto.
      repeat constructor. exact Hs.
    + intros H.
      apply IH in H as (before & after & csss & -> & Hb & Hp & Hc & ->).
      apply unique_false in Eu as (Hu & css & Hs & ->).
      exists (c :: before), after, (css :: csss).
      repeat split; auto.
      * constructor; assumption.
      * simpl. rewrite <- app_assoc. reflexivity.
    + discriminate.
Qed.

Lemma find_unique_path_over_threshold stack t :
  opt_threshold config < len (combinations stack []) ->
  find_unique_path cssselect config stack t = (Ok None, t).
Proof.
  intros Hlen. unfold Finder.find_unique_path, len.
  rewrite sort_length. fold (len (combinations stack [])).
  apply Z.ltb_lt in Hlen. rewrite Hlen. reflexivity.
Qed.

Lemma find_unique_path_found stack t p t' :
  find_unique_path cssselect config stack t = (Ok (Some p), t') ->
  exists before after csss,
    sort (combinations stack []) = before ++ p :: after
    /\ Forall (fun q => ~ uniquely_matched cssselect config q) before
    /\ uniquely_matched cssselect config p
    /\ Forall2 (fun q css => selector q = Ok css) (before ++ [p]) csss
    /\ t' = t ++ List.map QueryUnique csss.
Proof.
  unfold Finder.find_unique_path.
  destruct (_ <? _); [discriminate|]. apply first_unique_Some.
Qed.

Lemma find_unique_path_Some stack t p t' :
  find_unique_path cssselect config stack t = (Ok (Some p), t') ->
    uniquely_matched cssselect config p.
Proof.
  intros H. apply find_unique_path_found in H
    as (? & ? & ? & _ & _ & Hp & _). exact Hp.
Qed.




Lemma find_unique_path_within_threshold stack t :
  len (combinations stack []) <= opt_threshold config ->
  find_unique_path cssselect config stack t
  = first_unique cssselect config (sort (combinations stack [])) t.
Proof.
  intros Hlen. unfold find_unique_path, len in *. rewrite sort_length.
  destruct (Z.ltb_spec (opt_threshold config)
              (Z.of_nat (length (combinations stack []))));
    [lia|reflexivity].
Qed.

Lemma find_unique_path_single stack t p css :
  1 <= opt_threshold config ->
  combinations stack [] = [p] ->
  selector p = Ok css ->
  find_unique_path cssselect config stack t
  = (match cssselect (root_document config) css with
     | [] => Raise (ValueError
               (lit "Can't select any node with this selector: " ++ css))
     | [_] => Ok (Some p)
     | _ => Ok None
     end, t ++ [QueryUnique css]).
Proof.
  intros Hth Hone Hp.
  rewrite find_unique_path_within_threshold
    by (rewrite Hone; unfold len; simpl; lia).
  rewrite Hone. cbn [sort insert_sorted first_unique].
  unfold bind. rewrite unique_eq, Hp.
  destruct (cssselect (root_document config) css) as [|n [|m l]];
    reflexivity.
Qed.


End Oracle.

(** ** Candidate generator *)

Lemma maybe_Some l : maybe (List.map Some l)
  = match l with [] => None | _ => Some l end.
Proof.
  unfold maybe.
  assert (H : omap (fun item : option Knot => item) (List.map Some l) = l).
  { induction l as [|k l IH]; [reflexivity|]. cbn. f_equal. exact IH. }
  rewrite H. destruct l; reflexivity.
Qed.

Section Levels.
Variable doc : node.
Variable cssselect : list nat -> list N -> list (list nat).
Variable config : Options.

(** The first group of candidates that is not empty, in the order id,
    attributes, classes, tag, wildcard. *)
Lemma candidates_first_group tag attrib :
  candidates config tag attrib =
  match id config attrib with
  | Some k => [k]
  | None =>
      match attr config attrib with
      | (_ :: _) as group => group
      | [] =>
          match class_names config attrib with
          | (_ :: _) as group => group
          | [] =>
              match tag_name config tag with
              | Some k => [k]
              | None => [any]
              end
          end
      end
  end.
Proof.
  unfold candidates. rewrite !maybe_Some.
  destruct (id config attrib); [reflexivity|].
  destruct (attr config attrib); [|reflexivity].
  destruct (class_names config attrib); [|reflexivity].
  destruct (tag_name config tag); reflexivity.
Qed.

Lemma candidates_nonempty tag attrib : candidates config tag attrib <> [].
Proof.
  rewrite candidates_first_group.
  destruct (id config attrib); [discriminate|].
  destruct (attr config attrib); [|discriminate].
  destruct (class_names config attrib); [|discriminate].
  destruct (tag_name config tag); discriminate.
Qed.

Lemma limit_level_ok limit level nth t :
  level <> [] ->
  exists level', limit_level limit level nth t = (Ok level', t).
Proof.
  intros Hl. destruct level as [|k level]; [congruence|].
  unfold limit_level.
  destruct (str_eqb limit (lit "all")).
  { destruct (truthy_nth nth); eauto. }
  destruct (str_eqb limit (lit "two")).
  { destruct (truthy_nth nth); eauto. }
  destruct (str_eqb limit (lit "one")).
  { destruct (truthy_nth nth); [|eauto]. cbn.
    destruct (dispensable_nth k); eauto. }
  destruct (str_eqb limit (lit "none")).
  { destruct (truthy_nth nth); eauto. }
  eauto.
Qed.

Lemma build_level_ok limit current i tag attrib t :
  exists level, build_level doc config limit current i tag attrib t
    = (Ok level, t).
Proof.
  unfold build_level, bind.
  destruct (limit_level_ok limit _ (index doc current) t
              (candidates_nonempty tag attrib)) as (level & ->).
  eauto.
Qed.

(** C2, as amended.  In the mode "all" the level of an element is the
    first group that is not empty, in the order id, attributes, classes,
    tag, wildcard; when the element has a position among its siblings, the
    position-qualified copy of every dispensable candidate of that group
    follows; every knot carries the index of the level. *)
Theorem all_mode_level (current : list nat) (i : Z) (tag : list N)
    (attrib : list (list N * list N)) (t : list event) :
  build_level doc config (lit "all") current i tag attrib t =
  (Ok (List.map (set_level i)
         (let group :=
            match id config attrib with
            | Some k => [k]
            | None =>
                match attr config attrib with
                | (_ :: _) as group => group
                | [] =>
                    match class_names config attrib with
                    | (_ :: _) as group => group
                    | [] =>
                        match tag_name config tag with
                        | Some k => [k]
                        | None => [any]
                        end
                    end
                end
            end in
          match index doc current with
          | Some n =>
              group ++ List.map (fun node => nth_child node n)
                         (List.filter dispensable_nth group)
          | None => group
          end)), t).
Proof.
  unfold build_level, limit_level.
  rewrite truthy_nth_index, candidates_first_group.
  change (str_eqb (lit "all") (lit "all")) with true. cbv iota.
  destruct (index doc current); reflexivity.
Qed.

(** C8.  [unique] queries the engine once with the rendered selector.
    It raises [ValueError] when nothing matches; otherwise it returns a
    boolean, true exactly when one node matches. *)
Theorem unique_contract (path : list Knot) (css : list N) (t : list event) :
  selector path = Ok css ->
  (cssselect (root_document config) css = [] ->
   unique cssselect config path t =
   (Raise (ValueError
             (lit "Can't select any node with this selector: " ++ css)),
    t ++ [QueryUnique css]))
  /\ (cssselect (root_document config) css <> [] ->
      exists b, unique cssselect config path t = (Ok b, t ++ [QueryUnique css])
                /\ (b = true <-> exists n, cssselect (root_document config) css
                  = [n])).
Proof.
  intros Hs. rewrite unique_eq, Hs. split.
  - intros ->. reflexivity.
  - intros Hne. destruct (cssselect _ css) as [|n [|m l]]; [congruence| |].
    + exists true. split; [reflexivity|]. split; eauto.
    + exists false. split; [reflexivity|]. split; [discriminate|].
      intros [n' H]. discriminate.
Qed.

(** C3, as amended.  For an element whose tag is "html", the root or
    not, [finder] returns "html" and leaves the trace as it is: no search,
    no query. *)
Theorem finder_html_shortcut (input : list nat) (attrib : list
    (list N * list N))
    (children : list node) (options : PartialOptions) (t : list event) :
  Tree.node_at doc input = Some (Element (lit "html") attrib children) ->
  finder doc cssselect input options t = (Ok (lit "html"), t).
Proof.
  intros H. unfold finder. rewrite H. reflexivity.
Qed.

End Levels.

(** ** Computations that return *)

Lemma bind_Ok {A B} (m : M A) (f : A -> M B) t b t' :
  bind m f t = (Ok b, t') ->
  exists a t1, m t = (Ok a, t1) /\ f a t1 = (Ok b, t').
Proof.
  unfold bind. destruct (m t) as [[a|e] t1]; [eauto|discriminate].
Qed.

Lemma node_at_parent doc k parent n :
  Tree.node_at doc (k :: parent) = Some n ->
  exists tag attrib children,
    Tree.node_at doc parent = Some (Element tag attrib children).
Proof.
  simpl. destruct (Tree.node_at doc parent) as [[tag attrib children|]|];
    [eauto|discriminate..].
Qed.

(** ** Bottom-up search *)

Section PathSearch.
Variable doc : node.
Variable cssselect : list nat -> list N -> list (list nat).
Variable config : Options.


Lemma find_unique_path_threshold_0 stack t :
  opt_threshold config <= 0 ->
    find_unique_path cssselect config stack t = (Ok None, t).
Proof.
  intros H0. unfold Finder.find_unique_path.
  destruct (Z.ltb_spec (opt_threshold config) (len (sort
      (combinations stack []))))
    as [_|Hle]; [reflexivity|].
  destruct (sort (combinations stack [])) as [|p l]; [reflexivity|].
  unfold len in Hle. simpl in Hle. lia.
Qed.

Lemma truthy_Some p : truthy (Some p) = true -> p <> [].
Proof. destruct p; [discriminate|discriminate]. Qed.

(** A path the loop ends with is one [find_unique_path] returned. *)
Lemma walk_found limit current : forall i stack path t path' stack' t',
  walk doc cssselect config limit current i stack path t
    = (Ok (path', stack'), t') ->
  (forall p, path = Some p -> truthy path = true ->
    uniquely_matched cssselect config p) ->
  forall p, path' = Some p -> truthy path' = true ->
    uniquely_matched cssselect config p.
Proof.
  induction current as [|k parent IH]; intros i stack path t path' stack' t';
    cbn [Finder.walk];
    destruct (Tree.node_at doc _) as [[tag attrib children|text]|];
    try discriminate.
  - intros H Hpath. apply bind_Ok in H as (level & t1 & _ & H).
    apply bind_Ok in H as (path1 & t2 & Hfind & H).
    assert (Hp1 : forall p, path1 = Some p -> truthy path1 = true ->
                            uniquely_matched cssselect config p).
    { destruct (_ <=? _).
      - intros p -> _. eapply find_unique_path_Some, Hfind.
      - injection Hfind as <- <-. exact Hpath. }
    destruct (_ && _); injection H as <- <- <-; exact Hp1.
  - intros [= <- <- <-]. auto.
  - intros H Hpath. apply bind_Ok in H as (level & t1 & _ & H).
    apply bind_Ok in H as (path1 & t2 & Hfind & H).
    assert (Hp1 : forall p, path1 = Some p -> truthy path1 = true ->
                            uniquely_matched cssselect config p).
    { destruct (_ <=? _).
      - intros p -> _. eapply find_unique_path_Some, Hfind.
      - injection Hfind as <- <-. exact Hpath. }
    destruct (_ && _).
    + injection H as <- <- <-. exact Hp1.
    + eapply IH; eassumption.
  - intros H Hpath. eapply IH; eassumption.
Qed.

Lemma bottom_up_search_found input limit t p t' :
  bottom_up_search doc cssselect config input limit t = (Ok (Some p), t') ->
  uniquely_matched cssselect config p.
Proof.
  unfold Finder.bottom_up_search. intros H.
  apply bind_Ok in H as ([path stack] & t1 & Hwalk & H).
  destruct (truthy path) eqn:Ht.
  - injection H as -> <-.
    eapply walk_found; [exact Hwalk| |reflexivity|exact Ht]. discriminate.
  - eapply find_unique_path_Some, H.
Qed.

Lemma seed_search_found input t p t' :
  seed_search doc cssselect config input t = (Ok (Some p), t') ->
  uniquely_matched cssselect config p.
Proof.
  unfold seed_search. intros H.
  apply bind_Ok in H as (p1 & t1 & H1 & H).
  destruct (truthy p1).
  { injection H as -> <-. eapply bottom_up_search_found, H1. }
  apply bind_Ok in H as (p2 & t2 & H2 & H).
  destruct (truthy p2).
  { injection H as -> <-. eapply bottom_up_search_found, H2. }
  apply bind_Ok in H as (p3 & t3 & H3 & H).
  destruct (truthy p3).
  { injection H as -> <-. eapply bottom_up_search_found, H3. }
  eapply bottom_up_search_found, H.
Qed.

(** With a threshold of 0 no attempt gives a path, and none is tested. *)
Lemma walk_threshold_0 limit current : forall i stack path t n,
  opt_threshold config <= 0 ->
  Tree.node_at doc current = Some n ->
  truthy path = false ->
  exists path' stack',
    walk doc cssselect config limit current i stack path t
      = (Ok (path', stack'), t)
    /\ truthy path' = false.
Proof.
  induction current as [|k parent IH]; intros i stack path t n H0 Hn Hpath;
    cbn [Finder.walk].
  - rewrite Hn. destruct n as [tag attrib children|text]; [|eauto].
    unfold bind at 1.
    destruct (build_level_ok doc config limit [] i tag attrib t)
      as (level & ->).
    unfold bind at 1.
    destruct (_ <=? _); [rewrite find_unique_path_threshold_0 by assumption|];
      cbn; rewrite ?Hpath; eauto.
  - destruct (node_at_parent _ _ _ _ Hn)
    as (ptag & pattrib & pchildren & Hparent).
    rewrite Hn. destruct n as [tag attrib children|text].
    + unfold bind at 1.
      destruct (build_level_ok doc config limit (k :: parent) i tag attrib t)
        as (level & ->).
      unfold bind at 1.
      destruct (_ <=? _); [rewrite find_unique_path_threshold_0 by assumption|];
        cbn; rewrite ?Hpath; eapply IH; eauto.
    + eapply IH; eauto.
Qed.

Lemma bottom_up_search_threshold_0 input limit t n :
  opt_threshold config <= 0 ->
  Tree.node_at doc input = Some n ->
  bottom_up_search doc cssselect config input limit t = (Ok None, t).
Proof.
  intros H0 Hn. unfold Finder.bottom_up_search, bind.
  destruct (walk_threshold_0 limit input 0 [] None t n H0 Hn eq_refl)
    as (path' & stack' & -> & ->).
  apply find_unique_path_threshold_0, H0.
Qed.

Lemma find_threshold_0 input t n :
  opt_threshold config <= 0 ->
  Tree.node_at doc input = Some n ->
  find doc cssselect config input t =
  (Raise (ValueError (lit "Selector was not found.")), t).
Proof.
  intros H0 Hn. unfold find, seed_search, bind.
  repeat (rewrite (bottom_up_search_threshold_0 _ _ _ n H0 Hn);
          cbn [truthy]).
  reflexivity.
Qed.

End PathSearch.

(** ** Optimizer *)

Section Optimizer.
Variable doc : node.
Variable cssselect : list nat -> list N -> list (list nat).
Variable config : Options.


Lemma same_eq path input t :
  same cssselect config path input t =
  match selector path with
  | Raise e => (Raise e, t)
  | Ok css =>
      (match cssselect (root_document config) css with
       | [] => Raise IndexError
       | element :: _ => Ok (addr_eqb element input)
       end, t ++ [QuerySame css])
  end.
Proof.
  unfold Finder.same, bind, lift, emit, ret.
  destruct (selector path) as [css|e]; [|reflexivity].
  destruct (cssselect _ css); reflexivity.
Qed.

(** One round of the loop of [optimize]. *)
Lemma optimize_loop_cons recur path input i rest results sc t :
  optimize_loop cssselect config recur path input (i :: rest) results sc t =
  if opt_max_number_of_tries config <? counter sc then (Ok (results, sc), t)
  else
    let sc1 := mkScope (counter sc + 1) (visited sc) in
    let new_path := firstn i path ++ skipn (i + 1) path in
    match selector new_path with
    | Raise e => (Raise e, t)
    | Ok key =>
        match visited sc !! key with
        | Some _ => optimize_loop cssselect config recur path input rest
            results sc1 t
        | None =>
            match cssselect (root_document config) key with
            | [] =>
                (Raise (ValueError
                          (lit "Can't select any node with this selector: "
                           ++ key)), t ++ [QueryUnique key])
            | [n] =>
                if addr_eqb n input then
                  match recur new_path
                          (mkScope (counter sc + 1)
                                   (<[key := true]> (visited sc)))
                          ((t ++ [QueryUnique key]) ++ [QuerySame key]) with
                  | (Ok (found, sc2), t2) =>
                      optimize_loop cssselect config recur path input rest
                        ((results ++ [new_path]) ++ found) sc2 t2
                  | (Raise e, t2) => (Raise e, t2)
                  end
                else optimize_loop cssselect config recur path input rest
                    results sc1
                       ((t ++ [QueryUnique key]) ++ [QuerySame key])
            | _ => optimize_loop cssselect config recur path input rest results
                sc1
                     (t ++ [QueryUnique key])
            end
        end
    end.
Proof.
  cbn [Finder.optimize_loop].
  destruct (_ <? _); [reflexivity|]. cbv zeta.
  unfold bind at 1. unfold lift at 1.
  destruct (selector _) as [key|e] eqn:Hkey; [|reflexivity].
  cbn [visited]. destruct (visited sc !! key); [reflexivity|].
  unfold bind at 1. rewrite unique_eq, Hkey.
  destruct (cssselect (root_document config) key)
    as [|n [|m l]] eqn:Hsel; [reflexivity| |].
  - unfold bind at 1. rewrite same_eq, Hkey, Hsel.
    destruct (addr_eqb n input); [|reflexivity].
    unfold bind at 1.
    destruct (recur _ _ _) as [[[found sc2]|e] t2]; reflexivity.
  - reflexivity.
Qed.

Lemma optimize_loop_nil recur path input results sc t :
  optimize_loop cssselect config recur path input [] results sc t
    = (Ok (results, sc), t).
Proof. reflexivity. Qed.

Lemma optimize_loop_over_budget recur path input indices results sc t :
  opt_max_number_of_tries config < counter sc ->
  optimize_loop cssselect config recur path input indices results sc t
    = (Ok (results, sc), t).
Proof.
  intros H. destruct indices as [|i rest]; [reflexivity|].
  rewrite optimize_loop_cons. apply Z.ltb_lt in H. rewrite H. reflexivity.
Qed.

Lemma optimize_from_over_budget fuel path input sc t :
  opt_max_number_of_tries config < counter sc ->
  optimize_from cssselect config fuel path input sc t = (Ok ([], sc), t).
Proof.
  intros H. destruct fuel; cbn [Finder.optimize_from];
    destruct (_ && _); try reflexivity.
  apply optimize_loop_over_budget, H.
Qed.

(** *** The recursion of [optimize] does not depend on the fuel *)

Lemma removed_length {A} (path : list A) i :
  (i < length path)%nat ->
  length (firstn i path ++ skipn (i + 1) path) = (length path - 1)%nat.
Proof.
  intros Hi. rewrite length_app, length_firstn, length_skipn. lia.
Qed.

Lemma optimize_loop_ext recur1 recur2 path input :
  (forall p sc t, length p = (length path - 1)%nat ->
                  recur1 p sc t = recur2 p sc t) ->
  forall indices, List.Forall (fun i => (i < length path)%nat) indices ->
  forall results sc t,
    optimize_loop cssselect config recur1 path input indices results sc t =
    optimize_loop cssselect config recur2 path input indices results sc t.
Proof.
  intros Hrec indices Hall.
  induction Hall as [|i rest Hi Hrest IH]; intros results sc t; [reflexivity|].
  rewrite !optimize_loop_cons. destruct (_ <? _); [reflexivity|]. cbv zeta.
  destruct (selector _) as [key|e]; [|reflexivity].
  destruct (visited sc !! key); [apply IH|].
  destruct (cssselect (root_document config) key)
    as [|n [|m l]]; [reflexivity| |apply IH].
  destruct (addr_eqb n input); [|apply IH].
  rewrite Hrec by (apply removed_length, Hi).
  destruct (recur2 _ _ _) as [[[found sc2]|e] t2]; [apply IH|reflexivity].
Qed.

Lemma positions_in_range n :
  List.Forall (fun i => (i < n)%nat) (seq 1 (n - 2)).
Proof.
  apply List.Forall_forall. intros i Hi. apply in_seq in Hi. lia.
Qed.

Lemma optimize_from_fuel_enough fuel1 : forall fuel2 path input sc t,
  (length path <= fuel1)%nat -> (length path <= fuel2)%nat ->
  optimize_from cssselect config fuel1 path input sc t
    = optimize_from cssselect config fuel2 path input sc t.
Proof.
  induction fuel1 as [|fuel1 IH]; intros fuel2 path input sc t H1 H2.
  - destruct path; [|simpl in H1; lia].
    destruct fuel2; reflexivity.
  - destruct fuel2 as [|fuel2].
    + destruct path; [reflexivity|simpl in H2; lia].
    + cbn [Finder.optimize_from]. destruct (_ && _) eqn:E; [|reflexivity].
      apply andb_true_iff in E as [E _]. apply Z.ltb_lt in E. unfold len in E.
      apply optimize_loop_ext; [|apply positions_in_range].
      intros p sc' t' Hp. apply IH; lia.
Qed.

(** *** What the optimizer returns *)

Lemma optimize_loop_results recur path input :
  (forall p sc t found sc' t',
      recur p sc t = (Ok (found, sc'), t') ->
      List.Forall (matches_only cssselect config input) found) ->
  forall indices results sc t found sc' t',
    List.Forall (matches_only cssselect config input) results ->
    optimize_loop cssselect config recur path input indices results sc t
    = (Ok (found, sc'), t') ->
    List.Forall (matches_only cssselect config input) found.
Proof.
  intros Hrec indices.
  induction indices as [|i rest IH]; intros results sc t found sc' t' Hres.
  - intros [= <- <- <-]. exact Hres.
  - rewrite optimize_loop_cons. destruct (_ <? _).
    { intros [= <- <- <-]. exact Hres. }
    cbv zeta. destruct (selector _) as [key|e] eqn:Hkey; [|discriminate].
    destruct (visited sc !! key); [apply IH, Hres|].
    destruct (cssselect (root_document config) key) as [|n [|m l]] eqn:Hsel;
      [discriminate| |apply IH, Hres].
    destruct (addr_eqb n input) eqn:Hn; [|apply IH, Hres].
    destruct (recur _ _ _) as [[[sub sc2]|e] t2] eqn:Hr; [|discriminate].
    apply IH. apply List.Forall_app. split.
    + apply List.Forall_app. split; [exact Hres|]. constructor; [|constructor].
      exists key. split; [exact Hkey|].
      unfold addr_eqb in Hn. apply bool_decide_eq_true in Hn. subst n.
      exact Hsel.
    + eapply Hrec, Hr.
Qed.

Lemma optimize_from_results fuel : forall path input sc t found sc' t',
  optimize_from cssselect config fuel path input sc t = (Ok (found, sc'), t') ->
  List.Forall (matches_only cssselect config input) found.
Proof.
  induction fuel as [|fuel IH]; intros path input sc t found sc' t';
    cbn [Finder.optimize_from]; destruct (_ && _);
    try (intros [= <- <- <-]; constructor).
  apply optimize_loop_results; [|constructor].
  intros p sc0 t0 f0 sc0' t0'. apply IH.
Qed.

Lemma optimize_results path input t found t' :
  optimize cssselect config path input t = (Ok found, t') ->
  List.Forall (matches_only cssselect config input) found.
Proof.
  unfold Finder.optimize. intros H.
  apply bind_Ok in H as ([res sc'] & t1 & H & [= <- <-]).
  eapply optimize_from_results, H.
Qed.

End Optimizer.

(** ** Counting the queries of a trace *)




(** ** The visited set of the optimizer *)

Section Memo.
Variable doc : node.
Variable cssselect : list nat -> list N -> list (list nat).
Variable config : Options.
Variable input : list nat.







End Memo.

(** ** The budget of tries *)

Section Budget.
Variable doc : node.
Variable cssselect : list nat -> list N -> list (list nat).
Variable config : Options.

Lemma optimize_tries_0 path input t found t' :
  opt_max_number_of_tries config = 0 ->
  optimize cssselect config path input t = (Ok found, t') ->
  (found = [] \/ found = [firstn 1 path ++ skipn 2 path])
  /\ exists evs, t' = t ++ evs /\ (length evs <= 2)%nat.
Proof.
  intros Hmax. unfold Finder.optimize. intros H.
  apply bind_Ok in H as ([res sc'] & t1 & H & [= <- <-]).
  destruct path as [|k0 path]; [cbn in H|].
  { destruct (_ && _); injection H as <- <- <-;
      (split; [auto|exists []; rewrite app_nil_r; auto]). }
  cbn [length Finder.optimize_from] in H. destruct (_ && _) eqn:E.
  2:{ injection H as <- <- <-.
      split; [auto|exists []; rewrite app_nil_r; auto]. }
  apply andb_true_iff in E as [E _]. apply Z.ltb_lt in E. unfold len in E.
  cbn [length] in E.
  destruct (S (length path) - 2)%nat as [|m] eqn:Em; [lia|].
  cbn [seq] in H. rewrite optimize_loop_cons in H.
  rewrite Hmax in H. cbn [counter fresh_scope] in H.
  change (0 <? 0) with false in H. cbv iota zeta in H.
  change (1 + 1)%nat with 2%nat in H.
  destruct (selector _) as [key|e]; [|discriminate].
  cbn [visited fresh_scope] in H. rewrite lookup_empty in H.
  destruct (cssselect _ key) as [|n [|n' l]]; [discriminate| |].
  - destruct (addr_eqb n input).
    + rewrite optimize_from_over_budget in H by (cbn; lia).
      rewrite optimize_loop_over_budget in H by (cbn; lia).
      injection H as <- <- <-. split; [right; reflexivity|].
      exists [QueryUnique key; QuerySame key]. rewrite <- app_assoc. auto.
    + rewrite optimize_loop_over_budget in H by (cbn; lia).
      injection H as <- <- <-. split; [left; reflexivity|].
      exists [QueryUnique key; QuerySame key]. rewrite <- app_assoc. auto.
  - rewrite optimize_loop_over_budget in H by (cbn; lia).
    injection H as <- <- <-. split; [left; reflexivity|].
    exists [QueryUnique key]. auto.
Qed.

End Budget.

(** ** The selector [finder] returns, and its budgets *)

Section Main.
Variable doc : node.
Variable cssselect : list nat -> list N -> list (list nat).

Lemma sort_head_In paths best rest :
  sort paths = best :: rest -> In best paths.
Proof.
  intros H. apply (Permutation_in _ (sort_perm paths)).
  rewrite H. left. reflexivity.
Qed.

(** What the search does guarantee.  When [finder] returns a selector for
    a node that is not an "html" element, the search found a uniquely
    matched seed path and the selector matches exactly one node.  That
    node is the input whenever the input is among the matches of the seed
    path: the seed path itself is tested for uniqueness only. *)
Theorem finder_matches_one_node
    (input : list nat) (options : PartialOptions) (n : node)
    (S : list N) (t t' : list event) :
  Tree.node_at doc input = Some n ->
  (forall attrib children, n <> Element (lit "html") attrib children) ->
  finder doc cssselect input options t = (Ok S, t') ->
  exists seed t1,
    seed_search doc cssselect (merge defaults options) input t
      = (Ok (Some seed), t1)
    /\ uniquely_matched cssselect (merge defaults options) seed
    /\ (exists m, cssselect (root_document (merge defaults options)) S = [m])
    /\ (forall css0,
          selector seed = Ok css0 ->
          In input (cssselect (root_document (merge defaults options)) css0) ->
          cssselect (root_document (merge defaults options)) S = [input]).
Proof.
  intros Hn Hhtml. unfold finder. rewrite Hn.
  assert (Htag : match n with
                 | Element tag _ _ => str_eqb tag (lit "html")
                 | Comment _ => false
                 end = false).
  { destruct n as [tag attrib children|text]; [|reflexivity].
    unfold str_eqb. apply bool_decide_eq_false. intros ->.
    eapply Hhtml. reflexivity. }
  rewrite Htag. unfold find. intros H.
  apply bind_Ok in H as (path & t1 & Hseed & H).
  destruct path as [[|k rest]|]; [discriminate| |discriminate].
  apply bind_Ok in H as (optimized & t2 & Hopt & H).
  unfold lift in H. injection H as H <-.
  pose proof (seed_search_found _ _ _ _ _ _ _ Hseed) as Hu.
  exists (k :: rest), t1. split; [exact Hseed|]. split; [exact Hu|].
  destruct (sort optimized) as [|best others] eqn:Hsort.
  - destruct Hu as (css & m & Hcss & Hm).
    assert (css = S) as -> by congruence.
    split; [eauto|]. intros css0 Hcss0 Hin.
    assert (css0 = S) as -> by congruence.
    rewrite Hm in Hin |- *. destruct Hin as [->|[]]. reflexivity.
  - apply sort_head_In in Hsort.
    apply optimize_results in Hopt.
    rewrite List.Forall_forall in Hopt.
    destruct (Hopt _ Hsort) as (css & Hcss & Hm).
    assert (css = S) as -> by congruence.
    split; [eauto|]. intros _ _ _. exact Hm.
Qed.

(** C4, as amended.  With a threshold of 0 (or less) no search mode
    gives a path, no query is made, and the search ends with "Selector was
    not found.".  With a threshold of 1 an attempt is given up, without a
    query, when it has more than one path; an attempt with one path has
    that path queried, and returns it when one node matches.  With
    [max_number_of_tries] 0
    the optimizer makes at most one try, the removal of position 1: it
    returns nothing or that one shortened path, after two queries at
    most. *)
Theorem budgets (config : Options) :
  (opt_threshold config <= 0 ->
   forall input n t,
     Tree.node_at doc input = Some n ->
     (forall limit,
        bottom_up_search doc cssselect config input limit t = (Ok None, t))
     /\ find doc cssselect config input t
        = (Raise (ValueError (lit "Selector was not found.")), t))
  /\ (opt_threshold config = 1 ->
      forall stack t,
        (1 < len (combinations stack []) ->
         find_unique_path cssselect config stack t = (Ok None, t))
        /\ (forall p css,
              combinations stack [] = [p] ->
              selector p = Ok css ->
              find_unique_path cssselect config stack t
              = (match cssselect (root_document config) css with
                 | [] =>
                     Raise (ValueError
                              (lit "Can't select any node with this selector: "
                               ++ css))
                 | [_] => Ok (Some p)
                 | _ => Ok None
                 end, t ++ [QueryUnique css])))
  /\ (opt_max_number_of_tries config = 0 ->
      forall path input t found t',
        optimize cssselect config path input t = (Ok found, t') ->
        (found = [] \/ found = [firstn 1 path ++ skipn 2 path])
        /\ exists evs, t' = t ++ evs /\ (length evs <= 2)%nat).
Proof.
  split; [|split].
  - intros H0 input n t Hn. split.
    + intros limit. eapply bottom_up_search_threshold_0; eassumption.
    + eapply find_threshold_0; eassumption.
  - intros H1 stack t. split.
    + intros Hlen. apply find_unique_path_over_threshold. lia.
    + intros p css Hone Hp. apply find_unique_path_single; [lia|auto..].
  - intros Hmax path input t found t'. apply optimize_tries_0, Hmax.
Qed.

End Main.

(** ** Where the specification and the code part *)

Import Examples.

(** A comment is searched as its parent: for the comment in [<body>],
    [finder] returns the selector "body", which matches the [body]
    element. *)
Lemma comment_is_not_relocated :
  Tree.node_at doc_comment the_comment = Some (Comment (lit "note"))
  /\ finder doc_comment engine_comment the_comment no_options []
     = (Ok (lit "body"), [QueryUnique (lit "body")])
  /\ engine_comment [] (lit "body") = [the_body]
  /\ [the_body] <> [the_comment].
Proof. repeat split; try (vm_compute; reflexivity). discriminate. Qed.

(** C1 fails on the code.  In [doc_items] the list [<ul>] holds a comment
    followed by three [<li>] elements, and the input is the second
    [<li>].  [index] counts the comment, so the position is 3, while
    ":nth-child(3)" counts elements only and selects the third [<li>], as
    [engine_items] answers.  "li" matches three nodes, so [finder]
    returns "li:nth-child(3)": it matches exactly one node, and that node
    is not the input. *)
Theorem finder_relocates_a_sibling :
  Tree.node_at doc_items [0; 0]%nat
  = Some (Element (lit "ul") []
            [Comment (lit "first"); Element (lit "li") [] [];
             Element (lit "li") [] []; Element (lit "li") [] []])
  /\ Tree.node_at doc_items item2 = Some (Element (lit "li") [] [])
  /\ index doc_items item2 = Some 3
  /\ engine_items [] (lit "li") = [item1; item2; item3]
  /\ engine_items [] (lit "li:nth-child(3)") = [item3]
  /\ finder doc_items engine_items item2 no_options []
     = (Ok (lit "li:nth-child(3)"),
        [QueryUnique (lit "li"); QueryUnique (lit "li:nth-child(3)")])
  /\ [item3] <> [item2].
Proof. repeat split; try (vm_compute; reflexivity). discriminate. Qed.

(** C2, as stated, fails on an element with an id: the tag candidate
    [div] is admissible, and the level of the mode "all" is the id
    candidate alone. *)
Lemma all_mode_drops_the_tag :
  tag_name defaults (lit "div") = Some (mkKnot (lit "div") (2 # 1) 0)
  /\ build_level doc_id defaults (lit "all") the_div 0 (lit "div")
       [(lit "id", lit "a")] []
     = (Ok [mkKnot (lit "#a") (0 # 1) 0], [])
  /\ ~ In (set_level 0 (mkKnot (lit "div") (2 # 1) 0))
          [mkKnot (lit "#a") (0 # 1) 0].
Proof.
  repeat split; try (vm_compute; reflexivity).
  intros [H|[]]. discriminate.
Qed.

(** C3, as stated, fails on a root element that is not "html": for the
    root [<div id="a">] the search runs, the engine is queried, and the
    result is "#a", not the tag. *)
Lemma root_div_is_searched :
  Tree.node_at doc_div [] = Some (Element (lit "div") [(lit "id", lit "a")] [])
  /\ finder doc_div engine_div [] no_options []
     = (Ok (lit "#a"), [QueryUnique (lit "#a")])
  /\ lit "#a" <> lit "div".
Proof. repeat split; try (vm_compute; reflexivity). discriminate. Qed.

(** C4, as stated, fails on both counts.  With a threshold of 1 the mode
    "all" finds the path of an element with an id, whose level has one
    candidate.  With [max_number_of_tries] 0 the optimizer shortens the
    seed path of the first [span]: the result is not the seed rendered. *)
Lemma budgets_still_allow_results :
  bottom_up_search doc_id engine_id (merge defaults (with_threshold 1))
    the_div (lit "all") []
  = (Ok (Some [mkKnot (lit "#a") (0 # 1) 0]), [QueryUnique (lit "#a")])
  /\ seed_search doc_spans engine_spans
       (merge defaults (with_seed_and_tries 4 0)) span1 []
     = (Ok (Some seed_spans), [QueryUnique (lit ".d > .c > .b > span")])
  /\ selector seed_spans = Ok (lit ".d > .c > .b > span")
  /\ fst (finder doc_spans engine_spans span1 (with_seed_and_tries 4 0) [])
     = Ok (lit ".d > .c span").
Proof. repeat split; vm_compute; reflexivity. Qed.


(** ** Instances of the theorems *)

Lemma finder_matches_one_node_witness :
  exists seed t1,
    seed_search doc_id engine_id (merge defaults no_options) the_div []
      = (Ok (Some seed), t1)
    /\ uniquely_matched engine_id (merge defaults no_options) seed
    /\ (exists m,
          engine_id (root_document (merge defaults no_options)) (lit "#a")
          = [m])
    /\ (forall css0,
          selector seed = Ok css0 ->
          In the_div
             (engine_id (root_document (merge defaults no_options)) css0) ->
          engine_id (root_document (merge defaults no_options)) (lit "#a")
          = [the_div]).
Proof.
  apply (finder_matches_one_node doc_id engine_id the_div no_options
           (Element (lit "div") [(lit "id", lit "a")] []) (lit "#a")
           [] [QueryUnique (lit "#a")]).
  - reflexivity.
  - discriminate.
  - vm_compute. reflexivity.
Defined.

Lemma finder_html_shortcut_witness :
  finder doc_comment engine_comment [] no_options []
  = (Ok (lit "html"), []).
Proof.
  eapply (finder_html_shortcut doc_comment engine_comment []).
  reflexivity.
Defined.

Lemma budgets_witness :
  find doc_id engine_id (merge defaults (with_threshold 0)) the_div []
  = (Raise (ValueError (lit "Selector was not found.")), [])
  /\ find_unique_path engine_id (merge defaults (with_threshold 1))
       two_candidates []
     = (Ok None, [])
  /\ find_unique_path engine_id (merge defaults (with_threshold 1))
       one_candidate []
     = (Ok (Some [mkKnot (lit "#a") (0 # 1) 0]),
        [] ++ [QueryUnique (lit "#a")])
  /\ (exists evs,
        snd (optimize engine_spans
               (merge defaults (with_seed_and_tries 4 0)) seed_spans span1 [])
        = [] ++ evs /\ (length evs <= 2)%nat).
Proof.
  pose proof (budgets doc_id engine_id (merge defaults (with_threshold 0)))
    as (H0 & _ & _).
  pose proof (budgets doc_id engine_id (merge defaults (with_threshold 1)))
    as (_ & H1 & _).
  pose proof (budgets doc_spans engine_spans
                (merge defaults (with_seed_and_tries 4 0)))
    as (_ & _ & Htries).
  assert (Hrun :
    optimize engine_spans (merge defaults (with_seed_and_tries 4 0))
      seed_spans span1 []
    = (Ok [firstn 1 seed_spans ++ skipn 2 seed_spans],
       snd (optimize engine_spans
              (merge defaults (with_seed_and_tries 4 0))
              seed_spans span1 [])))
    by (vm_compute; reflexivity).
  split; [|split; [|split]].
  - refine (proj2 (H0 _ the_div _ [] eq_refl)). vm_compute. discriminate.
  - apply (proj1 (H1 eq_refl two_candidates [])). vm_compute. reflexivity.
  - apply (proj2 (H1 eq_refl one_candidate [])
             [mkKnot (lit "#a") (0 # 1) 0] (lit "#a")); reflexivity.
  - exact (proj2 (Htries eq_refl _ _ _ _ _ Hrun)).
Defined.



Lemma unique_contract_witness :
  exists b,
    unique engine_id defaults [mkKnot (lit "#a") (0 # 1) 0] []
    = (Ok b, [] ++ [QueryUnique (lit "#a")])
    /\ (b = true <->
        exists n, engine_id (root_document defaults) (lit "#a") = [n]).
Proof.
  apply (unique_contract engine_id defaults
           [mkKnot (lit "#a") (0 # 1) 0] (lit "#a") []).
  - reflexivity.
  - vm_compute. discriminate.
Defined.

Lemma css_escape_characters_witness :
  Escaper.css_escape (lit "a.b") true = lit "a.b"
  /\ Escaper.escape_char 65%N = [65%N]
  /\ exists digits,
       Escaper.escape_char 233%N = lit "\" ++ digits ++ lit " "
       /\ forallb Escaper.is_HEX_digit digits = true
       /\ Escaper.hex_value digits = 233%N
       /\ (4 <= length digits)%nat
       /\ (length digits = 4%nat <-> (233 <= 0xFFFF)%N).
Proof.
  pose proof (css_escape_characters (lit "a.b") true)
    as (_ & Hid & Hprintable & Hother & _).
  split; [|split].
  - apply Hid. reflexivity.
  - apply Hprintable. reflexivity.
  - apply Hother. reflexivity.
Defined.

Lemma index_counts_every_sibling_witness :
  Tree.node_at doc_list the_li = Some (E "li" [] [])
  /\ index doc_list the_li = Some 2
  /\ (forall limit level,
        limit_level limit level (index doc_list the_li)
        = limit_level limit level (Some 2))
  /\ (forall node,
        knot_name (nth_child node 2)
        = knot_name node ++ lit ":nth-child(" ++ str_of_int 2 ++ lit ")")
  /\ build_level doc_list defaults (lit "none") the_li 0 (lit "li") [] []
     = (Ok [mkKnot (lit "*:nth-child(2)") (Qplus (3 # 1) (1 # 1)) 0], []).
Proof.
  apply (index_counts_every_sibling doc_list the_ul (lit "ul") []
           [Comment (lit "first")] (E "li" [] []) [] 0 (lit "li") []
           defaults []).
  reflexivity.
Defined.

(** * Further properties *)

(** ** More on the escaper *)

Lemma HEX_digit_printable c :
  Escaper.is_HEX_digit c = true -> Escaper.printable c = true.
Proof.
  unfold Escaper.is_HEX_digit, Escaper.printable. intros H.
  apply orb_true_iff in H as [H|H]; apply andb_true_iff in H as [H1 H2];
    apply N.leb_le in H1, H2; apply andb_true_iff; split; apply N.leb_le; lia.
Qed.

Lemma escape_char_printable c :
  forallb Escaper.printable (Escaper.escape_char c) = true.
Proof.
  unfold Escaper.escape_char. destruct (Escaper.printable c) eqn:Hc.
  - simpl. rewrite Hc. reflexivity.
  - rewrite !forallb_app. destruct (format_04X_digits c) as (Hhex & _).
    assert (Hd : forallb Escaper.printable (Escaper.format_04X c) = true).
    { rewrite forallb_forall in Hhex |- *.
      intros x Hx. apply HEX_digit_printable, Hhex, Hx. }
    rewrite Hd. reflexivity.
Qed.

Lemma escape_char_length c : (1 <= length (Escaper.escape_char c))%nat.
Proof.
  unfold Escaper.escape_char. destruct (Escaper.printable c); simpl; lia.
Qed.

(** X1.  Whatever the argument, the text [css_escape] returns consists of
    printable ASCII characters only and is not shorter than the argument;
    escaping a concatenation is concatenating the escaped parts. *)
Theorem css_escape_output (s1 s2 : list N) (is_identifier : bool) :
  forallb Escaper.printable (Escaper.css_escape s1 is_identifier) = true
  /\ (length s1 <= length (Escaper.css_escape s1 is_identifier))%nat
  /\ Escaper.css_escape (s1 ++ s2) is_identifier
     = Escaper.css_escape s1 is_identifier
       ++ Escaper.css_escape s2 is_identifier.
Proof.
  rewrite !css_escape_flat_map. split; [|split].
  - induction s1 as [|c s IH]; [reflexivity|].
    cbn [flat_map]. rewrite forallb_app, escape_char_printable, IH.
    reflexivity.
  - induction s1 as [|c s IH]; [simpl; lia|].
    cbn [flat_map]. rewrite length_app. cbn [length].
    pose proof (escape_char_length c). lia.
  - apply flat_map_app.
Qed.

(** ** Class tokens *)

Lemma split_loop_words s : forall word,
  List.Forall (fun c => Tree.isspace c = false) word ->
  List.Forall (fun w => w <> [] /\ List.Forall (fun c => Tree.isspace c
    = false) w)
    (Tree.split_loop s word).
Proof.
  induction s as [|c s IH]; intros word Hword; simpl.
  - destruct word as [|x word]; [constructor|].
    constructor; [|constructor]. split.
    + intros H. apply (f_equal (@length _)) in H.
      rewrite length_rev in H. discriminate.
    + apply List.Forall_rev, Hword.
  - destruct (Tree.isspace c) eqn:Hc.
    + destruct word as [|x word]; [apply IH; constructor|].
      constructor; [|apply IH; constructor]. split.
      * intros H. apply (f_equal (@length _)) in H.
        rewrite length_rev in H. discriminate.
      * apply List.Forall_rev, Hword.
    + apply IH. constructor; assumption.
Qed.

Lemma split_loop_no_space s : forall word,
  List.Forall (fun c => Tree.isspace c = false) s ->
  Tree.split_loop s word =
  match rev word ++ s with [] => [] | w => [w] end.
Proof.
  induction s as [|c s IH]; intros word Hs; simpl.
  - rewrite app_nil_r. destruct word as [|x word]; [reflexivity|].
    destruct (rev (x :: word)) eqn:E; [|reflexivity].
    apply (f_equal (@length _)) in E. rewrite length_rev in E. discriminate.
  - inversion Hs as [|? ? Hc Hs']; subst. rewrite Hc, IH by assumption.
    simpl. rewrite <- app_assoc. reflexivity.
Qed.

Lemma split_loop_app w s : forall word,
  List.Forall (fun c => Tree.isspace c = false) w ->
  Tree.split_loop (w ++ s) word = Tree.split_loop s (rev w ++ word).
Proof.
  induction w as [|c w IH]; intros word Hw; [reflexivity|].
  inversion Hw as [|? ? Hc Hw']; subst.
  cbn [app Tree.split_loop]. rewrite Hc, IH by assumption.
  cbn [rev]. rewrite <- app_assoc. reflexivity.
Qed.

Lemma split_word w s :
  w <> [] ->
  List.Forall (fun c => Tree.isspace c = false) w ->
  s = [] \/ (exists c s', s = c :: s' /\ Tree.isspace c = true) ->
  Tree.split (w ++ s) = w :: Tree.split s.
Proof.
  intros Hne Hw Hs. unfold Tree.split.
  rewrite split_loop_app by assumption. rewrite app_nil_r.
  assert (Hrev : exists x r, rev w = x :: r).
  { destruct (rev w) as [|x r] eqn:E; [|eauto].
    apply (f_equal (@length _)) in E. rewrite length_rev in E.
    destruct w; [congruence|discriminate]. }
  destruct Hrev as (x & r & Hrev).
  assert (Hw' : rev (x :: r) = w) by (rewrite <- Hrev; apply rev_involutive).
  rewrite Hrev.
  destruct Hs as [->|(c & s' & -> & Hc)].
  - cbn [Tree.split_loop]. rewrite Hw'. reflexivity.
  - cbn [Tree.split_loop]. rewrite Hc, Hw'. reflexivity.
Qed.

Section ClassNames.
Variable config : Options.

(** X2.  The class candidates are the tokens of the [class] attribute, in
    their order, that [class_name] allows: the name of each is a dot and
    the escaped token, its penalty 1.  The tokens are the maximal runs of
    characters that are not whitespace: leading whitespace is dropped, and
    a run followed by whitespace or by the end is one token, which fixes
    [Tree.split] on every string.  So every candidate is built from a
    token of the attribute that is not empty and has no whitespace in it,
    and every allowed token gives a candidate.  An element without a
    [class] attribute has no class candidate, and a [class] value without
    whitespace is one token. *)
Theorem class_names_tokens (attrib : list (list N * list N)) :
  List.Forall
    (fun k => exists name,
       In name (Tree.split (default [] (Tree.get attrib (lit "class"))))
       /\ name <> []
       /\ List.Forall (fun c => Tree.isspace c = false) name
       /\ opt_class_name config name = true
       /\ k = mkKnot (lit "." ++ Escaper.css_escape name true) (1 # 1) 0)
    (class_names config attrib)
  /\ class_names config attrib
     = List.map
         (fun name =>
            mkKnot (lit "." ++ Escaper.css_escape name true) (1 # 1) 0)
         (List.filter (opt_class_name config)
            (Tree.split (default [] (Tree.get attrib (lit "class")))))
  /\ (forall name,
        In name (Tree.split (default [] (Tree.get attrib (lit "class")))) ->
        opt_class_name config name = true ->
        In (mkKnot (lit "." ++ Escaper.css_escape name true) (1 # 1) 0)
           (class_names config attrib))
  /\ Tree.split [] = []
  /\ (forall c s, Tree.isspace c = true -> Tree.split (c :: s) = Tree.split s)
  /\ (forall w s,
        w <> [] ->
        List.Forall (fun c => Tree.isspace c = false) w ->
        s = [] \/ (exists c s', s = c :: s' /\ Tree.isspace c = true) ->
        Tree.split (w ++ s) = w :: Tree.split s)
  /\ (Tree.get attrib (lit "class") = None -> class_names config attrib = [])
  /\ (forall value,
        Tree.get attrib (lit "class") = Some value ->
        value <> [] ->
        List.Forall (fun c => Tree.isspace c = false) value ->
        opt_class_name config value = true ->
        class_names config attrib
        = [mkKnot (lit "." ++ Escaper.css_escape value true) (1 # 1) 0]).
Proof.
  unfold class_names. repeat apply conj.
  - apply List.Forall_forall. intros k Hk.
    apply in_map_iff in Hk as (name & <- & Hname).
    apply filter_In in Hname as [Hname Hok].
    pose proof (split_loop_words
                  (default [] (Tree.get attrib (lit "class"))) []
                  (List.Forall_nil _)) as Hall.
    rewrite List.Forall_forall in Hall.
    destruct (Hall name Hname) as [Hne Hns]. eauto 6.
  - reflexivity.
  - intros name Hname Hok. apply in_map_iff. exists name.
    split; [reflexivity|]. apply filter_In. auto.
  - reflexivity.
  - intros c s0 Hc. unfold Tree.split. cbn [Tree.split_loop].
    rewrite Hc. reflexivity.
  - apply split_word.
  - intros ->. reflexivity.
  - intros value -> Hne Hns Hok. cbn [default]. unfold Tree.split.
    rewrite split_loop_no_space by exact Hns. cbn [rev app].
    destruct value as [|c value]; [congruence|].
    simpl. rewrite Hok. reflexivity.
Qed.

End ClassNames.

(** ** The shape of a level *)

Lemma str_eqb_eq (a b : list N) : str_eqb a b = true <-> a = b.
Proof. unfold str_eqb. apply bool_decide_eq_true. Qed.

Lemma limit_level_shape limit level nth t :
  level <> [] ->
  exists level',
    limit_level limit level nth t = (Ok level', t)
    /\ level' <> []
    /\ (limit = lit "one" \/ limit = lit "none" -> length level' = 1%nat)
    /\ (limit = lit "two" -> (length level' <= 2)%nat)
    /\ (length level' <= 2 * length level)%nat.
Proof.
  intros Hl. destruct level as [|k level]; [congruence|].
  unfold limit_level.
  destruct (str_eqb limit (lit "all")) eqn:Eall.
  { apply str_eqb_eq in Eall. subst limit.
    destruct (truthy_nth nth); eexists; (split; [reflexivity|]);
      (split; [discriminate|]);
      (split; [intros [H|H]; discriminate|]);
      (split; [discriminate|]).
    - rewrite length_app, length_map.
      pose proof (filter_length_le dispensable_nth (k :: level)). lia.
    - lia. }
  destruct (str_eqb limit (lit "two")) eqn:Etwo.
  { apply str_eqb_eq in Etwo. subst limit.
    destruct (truthy_nth nth); eexists; (split; [reflexivity|]);
      (split; [discriminate|]);
      (split; [intros [H|H]; discriminate|]); simpl; split; intros; lia. }
  destruct (str_eqb limit (lit "one")) eqn:Eone.
  { apply str_eqb_eq in Eone. subst limit.
    destruct (truthy_nth nth); cbn;
      [destruct (dispensable_nth k)|]; eexists; (split; [reflexivity|]);
      (split; [discriminate|]); simpl; repeat split; intros; try lia;
      discriminate. }
  destruct (str_eqb limit (lit "none")) eqn:Enone.
  { apply str_eqb_eq in Enone. subst limit.
    destruct (truthy_nth nth); eexists; (split; [reflexivity|]);
      (split; [discriminate|]); simpl; repeat split; intros; try lia;
      discriminate. }
  eexists. split; [reflexivity|]. split; [discriminate|].
  split; [|split].
  - intros [->| ->]; discriminate.
  - intros ->. discriminate.
  - simpl. lia.
Qed.

Section Shape.
Variable doc : node.
Variable cssselect : list nat -> list N -> list (list nat).
Variable config : Options.

(** X3.  Building a level never raises and never queries the engine.
    The level is not empty and every knot of it carries the level index;
    it has one candidate in the modes "one" and "none", at most two in
    the mode "two", and at most twice the candidates of the element in
    any mode. *)
Theorem build_level_shape (limit : list N) (current : list nat) (i : Z)
    (tag : list N) (attrib : list (list N * list N)) (t : list event) :
  exists level,
    build_level doc config limit current i tag attrib t = (Ok level, t)
    /\ level <> []
    /\ List.Forall (fun k => knot_level k = i) level
    /\ (limit = lit "one" \/ limit = lit "none" -> length level = 1%nat)
    /\ (limit = lit "two" -> (length level <= 2)%nat)
    /\ (length level <= 2 * length (candidates config tag attrib))%nat.
Proof.
  unfold build_level, bind.
  destruct (limit_level_shape limit _ (index doc current) t
              (candidates_nonempty config tag attrib))
    as (level & -> & Hne & Hone & Htwo & Hall).
  exists (List.map (set_level i) level).
  split; [reflexivity|]. rewrite length_map.
  split; [|split; [|auto]].
  - destruct level; [congruence|discriminate].
  - apply List.Forall_forall. intros k Hk.
    apply in_map_iff in Hk as (k0 & <- & _). reflexivity.
Qed.

(** *** When [find_unique_path] returns no path *)

Lemma first_unique_None paths : forall t t',
  first_unique cssselect config paths t = (Ok None, t') ->
  exists csss,
    Forall2 (fun q css =>
               selector q = Ok css
               /\ (2 <= length (cssselect (root_document config) css))%nat)
            paths csss
    /\ t' = t ++ List.map QueryUnique csss.
Proof.
  induction paths as [|c paths IH]; intros t t'; simpl.
  - intros [= <-]. exists []. split; [constructor|].
    rewrite app_nil_r. reflexivity.
  - unfold bind at 1. rewrite unique_eq.
    destruct (selector c) as [css|e] eqn:Hc; [|discriminate].
    destruct (cssselect (root_document config) css) as [|n [|m l]] eqn:Hsel;
      try discriminate.
    intros H. apply IH in H as (csss & Hall & ->).
    exists (css :: csss). split.
    + constructor; [|exact Hall]. split; [exact Hc|].
      rewrite Hsel. simpl. lia.
    + simpl. rewrite <- app_assoc. reflexivity.
Qed.

(** X4.  When [find_unique_path] returns no path, either there are more
    paths than [threshold] and nothing was queried, or every path was
    queried once, in sorted order, and each selector matched two nodes
    or more. *)
Theorem find_unique_path_none (stack : list (list Knot))
    (t t' : list event) :
  find_unique_path cssselect config stack t = (Ok None, t') ->
  (opt_threshold config < len (combinations stack []) /\ t' = t)
  \/ (len (combinations stack []) <= opt_threshold config
      /\ exists csss,
           Forall2 (fun q css =>
                      selector q = Ok css
                      /\ (2 <= length (cssselect
                          (root_document config) css))%nat)
                   (sort (combinations stack [])) csss
           /\ t' = t ++ List.map QueryUnique csss).
Proof.
  unfold find_unique_path, len. rewrite sort_length.
  destruct (Z.ltb_spec (opt_threshold config)
              (Z.of_nat (length (combinations stack [])))) as [Hlt|Hle].
  - intros [= <-]. left. split; [exact Hlt|reflexivity].
  - intros H. right. split; [exact Hle|].
    apply first_unique_None, H.
Qed.

End Shape.

Lemma limit_level_pure limit level nth t r t' :
  limit_level limit level nth t = (r, t') ->
  t' = t /\ forall t0, limit_level limit level nth t0 = (r, t0).
Proof.
  unfold limit_level.
  destruct (str_eqb limit (lit "all")).
  { destruct (truthy_nth nth); intros [= <- <-]; auto. }
  destruct (str_eqb limit (lit "two")).
  { destruct (truthy_nth nth); [|intros [= <- <-]; auto].
    unfold bind, lift. destruct (first (firstn 1 level));
      intros [= <- <-]; auto. }
  destruct (str_eqb limit (lit "one")).
  { destruct (truthy_nth nth); [|intros [= <- <-]; auto].
    unfold bind, lift. destruct (first (firstn 1 level)) as [k|e];
      [destruct (dispensable_nth k)|]; intros [= <- <-]; auto. }
  destruct (str_eqb limit (lit "none")).
  { destruct (truthy_nth nth); intros [= <- <-]; auto. }
  intros [= <- <-]; auto.
Qed.

Lemma build_level_pure doc config limit current i tag attrib t level t' :
  build_level doc config limit current i tag attrib t = (Ok level, t') ->
  t' = t /\
  forall t0, build_level doc config limit current i tag attrib t0
             = (Ok level, t0).
Proof.
  unfold build_level, bind.
  destruct (limit_level limit _ _ t) as [r t1] eqn:E.
  apply limit_level_pure in E as [-> E].
  destruct r as [l|e]; [|discriminate]. intros [= <- <-].
  split; [reflexivity|]. intros t0. rewrite E. reflexivity.
Qed.

Lemma build_level_stamp doc config limit current i tag attrib t level t' :
  build_level doc config limit current i tag attrib t = (Ok level, t') ->
  List.Forall (fun k => knot_level k = i) level.
Proof.
  unfold build_level. intros H.
  apply bind_Ok in H as (l & t1 & _ & [= <- <-]).
  apply List.Forall_forall. intros k Hk.
  apply in_map_iff in Hk as (k0 & <- & _). reflexivity.
Qed.

Section Seed.
Variable doc : node.
Variable cssselect : list nat -> list N -> list (list nat).
Variable config : Options.

Lemma find_unique_path_In stack t p t' :
  find_unique_path cssselect config stack t = (Ok (Some p), t') ->
  In p (combinations stack []) /\ uniquely_matched cssselect config p.
Proof.
  intros H. apply find_unique_path_found in H
    as (before & after & csss & Hsort & _ & Hp & _).
  split; [|exact Hp].
  apply (Permutation_in _ (sort_perm (combinations stack []))).
  rewrite Hsort. apply in_elt.
Qed.

(** What the loop of [bottom_up_search] leaves behind when it starts at
    an element: the levels it adds are those of [current] and of its
    ancestors, one after the other; it ends with a path that
    [find_unique_path] found in the stack, or at the root without one. *)
Lemma walk_levels limit current :
  forall i stack path t path' stack' t' tag attrib children,
  Tree.node_at doc current = Some (Element tag attrib children) ->
  truthy path = false ->
  walk doc cssselect config limit current i stack path t
  = (Ok (path', stack'), t') ->
  exists new,
    stack' = stack ++ new
    /\ (1 <= length new <= length current + 1)%nat
    /\ (forall (j : nat) L,
          new !! j = Some L ->
          Search.level_built doc config limit (drop j current)
            (i + Z.of_nat j) L)
    /\ (truthy path' = true ->
        exists p, path' = Some p
                  /\ In p (combinations stack' [])
                  /\ uniquely_matched cssselect config p
                  /\ opt_seed_min_length config <= len stack')
    /\ (truthy path' = false -> length new = (length current + 1)%nat).
Proof.
  induction current as [|k parent IH];
    intros i stack path t path' stack' t' tag attrib children Hn Hpath;
    cbn [Finder.walk]; rewrite Hn; intros H;
    apply bind_Ok in H as (level & t1 & Hlevel & H);
    apply build_level_pure in Hlevel as [-> Hlevel];
    apply bind_Ok in H as (path1 & t2 & Hfind & H).
  - exists [level]. 
    assert (Hres : path' = path1 /\ stack' = stack ++ [level]).
    { destruct (_ && _); injection H as <- <- <-; auto. }
    destruct Hres as [-> ->]. split; [reflexivity|].
    split; [simpl; lia|]. split; [|split].
    + intros [|j] L; [|destruct j; discriminate]. intros [= <-].
      rewrite Z.add_0_r. exists tag, attrib, children. auto.
    + intros Ht. destruct (_ <=? _) eqn:Eseed.
      * destruct path1 as [p|]; [|discriminate].
        apply find_unique_path_In in Hfind as [Hin Hu].
        exists p. repeat split; auto. apply Z.leb_le, Eseed.
      * injection Hfind as <- <-. congruence.
    + reflexivity.
  - destruct (_ && _) eqn:Efound.
    + injection H as <- <- <-. exists [level]. split; [reflexivity|].
      split; [simpl; lia|]. split; [|split].
      * intros [|j] L; [|destruct j; discriminate]. intros [= <-].
        rewrite Z.add_0_r. exists tag, attrib, children. auto.
      * intros _. apply andb_true_iff in Efound as [Eseed Ht].
        rewrite Eseed in Hfind.
        destruct path1 as [p|]; [|discriminate].
        apply find_unique_path_In in Hfind as [Hin Hu].
        exists p. repeat split; auto. apply Z.leb_le, Eseed.
      * intros Hf. apply andb_true_iff in Efound as [_ Ht]. congruence.
    + assert (Hp1 : truthy path1 = false).
      { destruct (_ <=? _) eqn:Eseed.
        - simpl in Efound. exact Efound.
        - injection Hfind as <- <-. exact Hpath. }
      destruct (node_at_parent _ _ _ _ Hn)
        as (ptag & pattrib & pchildren & Hparent).
      eapply IH in H as (new & -> & Hlen & Hbuilt & Hfound & Hnone);
        [|exact Hparent|exact Hp1].
      exists (level :: new). rewrite <- app_assoc. split; [reflexivity|].
      split; [simpl; lia|]. split; [|split].
      * intros [|j] L; simpl.
        -- intros [= <-]. rewrite Z.add_0_r.
           exists tag, attrib, children. auto.
        -- intros HL. apply Hbuilt in HL.
           replace (i + Z.of_nat (S j)) with (i + 1 + Z.of_nat j) by lia.
           exact HL.
      * rewrite <- app_assoc in Hfound. exact Hfound.
      * intros Hf. simpl. rewrite Hnone by exact Hf. reflexivity.
Qed.

End Seed.

Lemma selector_consecutive path : forall i,
  path <> [] ->
  (forall (j : nat) k, path !! j = Some k -> knot_level k = i + Z.of_nat j) ->
  selector path = Ok (Chain.child_chain path).
Proof.
  induction path
    as [|a [|b rest] IH]; intros i Hne Hlev; [congruence|reflexivity|].
  rewrite selector_step.
  rewrite (IH (i + 1)); [| discriminate |].
  - unfold Spec.combinator.
    pose proof (Hlev 0%nat a eq_refl) as Ha.
    pose proof (Hlev 1%nat b eq_refl) as Hb.
    destruct (Z.eqb_spec (knot_level b) (knot_level a + 1)) as [_|Hn]; [|lia].
    reflexivity.
  - intros j k Hk. rewrite (Hlev (S j) k Hk). lia.
Qed.

Section SeedFacts.
Variable doc : node.
Variable cssselect : list nat -> list N -> list (list nat).
Variable config : Options.

Lemma bottom_up_search_levels input limit t p t' tag attrib children :
  Tree.node_at doc input = Some (Element tag attrib children) ->
  bottom_up_search doc cssselect config input limit t = (Ok (Some p), t') ->
  exists levels,
    Forall2 (fun k level => In k level) p levels
    /\ (1 <= length levels <= length input + 1)%nat
    /\ (forall (j : nat) L,
          levels !! j = Some L ->
          Search.level_built doc config limit (drop j input) (Z.of_nat j) L)
    /\ (opt_seed_min_length config <= len levels
        \/ length levels = (length input + 1)%nat)
    /\ uniquely_matched cssselect config p.
Proof.
  intros Hn. unfold bottom_up_search. intros H.
  apply bind_Ok in H as ([path' stack'] & t1 & Hwalk & H).
  eapply walk_levels in Hwalk
    as (new & -> & Hlen & Hbuilt & Hfound & Hnone); [|exact Hn|reflexivity].
  cbn [app] in *. exists new.
  assert (Hin : In p (combinations new []) /\
                uniquely_matched cssselect config p /\
                (opt_seed_min_length config <= len new
                 \/ length new = (length input + 1)%nat)).
  { destruct (truthy path') eqn:Ht.
    - injection H as -> <-.
      destruct (Hfound eq_refl) as (p' & [= <-] & Hin & Hu & Hmin). auto.
    - apply find_unique_path_In in H as [Hin Hu]. auto. }
  destruct Hin as (Hin & Hu & Hmin).
  apply combinations_In in Hin as (q & -> & Hq). cbn [app].
  repeat split; auto; try lia.
Qed.

(** X5.  A seed path found for an element has one knot for the input and
    for each of its nearest ancestors, as many as levels were built: at
    least one, at most the depth of the input plus one, and not fewer than
    [seed_min_length] unless the root was reached.  The knot at position
    [j] is a candidate of the level of the [j]-th ancestor and carries the
    level [j]; the path is uniquely matched. *)
Theorem seed_path_structure (input : list nat) (limit : list N)
    (t t' : list event) (p : list Knot)
    (tag : list N) (attrib : list (list N * list N)) (children : list node) :
  Tree.node_at doc input = Some (Element tag attrib children) ->
  bottom_up_search doc cssselect config input limit t = (Ok (Some p), t') ->
  (1 <= length p <= length input + 1)%nat
  /\ (opt_seed_min_length config <= len p
      \/ length p = (length input + 1)%nat)
  /\ (forall (j : nat) k,
        p !! j = Some k ->
        knot_level k = Z.of_nat j
        /\ exists level,
             Search.level_built doc config limit (drop j input)
               (Z.of_nat j) level
             /\ In k level)
  /\ uniquely_matched cssselect config p.
Proof.
  intros Hn H.
  destruct (bottom_up_search_levels _ _ _ _ _ _ _ _ Hn H)
    as (levels & Hall & Hlen & Hbuilt & Hmin & Hu).
  pose proof (Forall2_length _ _ _ Hall) as Hl.
  unfold len in *. rewrite Hl.
  split; [lia|]. split; [lia|]. split; [|exact Hu].
  intros j k Hk. split.
  - destruct (Forall2_lookup_l _ _ _ _ _ Hall Hk) as (L & HL & Hin).
    destruct (Hbuilt _ _ HL) as (tg & at' & ch & _ & Hb).
    pose proof (build_level_stamp _ _ _ _ _ _ _ _ _ _ (Hb [])) as Hstamp.
    rewrite List.Forall_forall in Hstamp. apply Hstamp, Hin.
  - destruct (Forall2_lookup_l _ _ _ _ _ Hall Hk) as (L & HL & Hin).
    exists L. split; [apply Hbuilt, HL|exact Hin].
Qed.

(** X6.  The levels of a seed path found for an element are 0, 1, 2 and
    so on without a gap, so that the path renders as a chain of child
    combinators. *)
Theorem seed_path_renders_as_child_chain (input : list nat)
    (limit : list N) (t t' : list event) (p : list Knot)
    (tag : list N) (attrib : list (list N * list N)) (children : list node) :
  Tree.node_at doc input = Some (Element tag attrib children) ->
  bottom_up_search doc cssselect config input limit t = (Ok (Some p), t') ->
  List.map knot_level p = List.map Z.of_nat (seq 0 (length p))
  /\ selector p = Ok (Chain.child_chain p).
Proof.
  intros Hn H.
  destruct (bottom_up_search_levels _ _ _ _ _ _ _ _ Hn H)
    as (levels & Hall & Hlen & Hbuilt & _).
  pose proof (Forall2_length _ _ _ Hall) as Hl.
  assert (Hlev : forall (j : nat) k, p !! j = Some k ->
                                     knot_level k = 0 + Z.of_nat j).
  { intros j k Hk.
    destruct (Forall2_lookup_l _ _ _ _ _ Hall Hk) as (L & HL & Hin).
    destruct (Hbuilt _ _ HL) as (tg & at' & ch & _ & Hb).
    pose proof (build_level_stamp _ _ _ _ _ _ _ _ _ _ (Hb [])) as Hstamp.
    rewrite List.Forall_forall in Hstamp. rewrite (Hstamp _ Hin). lia. }
  split.
  - apply list_eq. intros j. rewrite !list_lookup_fmap.
    destruct (p !! j) as [k|] eqn:Hk.
    + rewrite (lookup_seq_lt 0 (length p) j)
        by (apply lookup_lt_Some in Hk; exact Hk).
      cbn. f_equal. rewrite (Hlev _ _ Hk). lia.
    + rewrite lookup_seq_ge by (apply lookup_ge_None in Hk; exact Hk).
      reflexivity.
  - apply (selector_consecutive p 0); [|exact Hlev].
    destruct p; [simpl in Hl; lia|discriminate].
Qed.

End SeedFacts.

Lemma removed_nonempty (path : list Knot) i :
  path <> [] -> (1 <= i)%nat -> firstn i path ++ skipn (i + 1) path <> [].
Proof.
  intros Hp Hi. destruct path as [|a path]; [congruence|].
  destruct i as [|i]; [lia|]. discriminate.
Qed.

Section Errors.
Variable doc : node.
Variable cssselect : list nat -> list N -> list (list nat).
Variable config : Options.

Lemma unique_raises path t e t' :
  path <> [] ->
  unique cssselect config path t = (Raise e, t') ->
  Search.selects_nothing cssselect config e.
Proof.
  intros Hp. rewrite unique_eq.
  destruct path as [|a rest]; [congruence|]. cbn [selector].
  destruct (cssselect _ _) as [|n [|m l]] eqn:Hsel; intros [= <- <-].
  eexists. split; [reflexivity|exact Hsel].
Qed.

Lemma first_unique_raises paths : forall t e t',
  List.Forall (fun p => p <> []) paths ->
  first_unique cssselect config paths t = (Raise e, t') ->
  Search.selects_nothing cssselect config e.
Proof.
  induction paths as [|c paths IH]; intros t e t' Hall; simpl; [discriminate|].
  inversion Hall as [|? ? Hc Hrest]; subst.
  unfold bind at 1.
  destruct (unique cssselect config c t) as [[[]|e0] t1] eqn:Eu.
  - discriminate.
  - apply IH, Hrest.
  - intros [= <- <-]. eapply unique_raises; eassumption.
Qed.

Lemma combinations_nonempty_paths stack :
  stack <> [] ->
  List.Forall (fun p => p <> []) (sort (combinations stack [])).
Proof.
  intros Hs. apply List.Forall_forall. intros p Hp.
  apply (Permutation_in _ (sort_perm _)) in Hp.
  apply combinations_In in Hp as (q & -> & Hq). cbn [app].
  apply Forall2_length in Hq. intros ->.
  destruct stack; [congruence|discriminate].
Qed.

Lemma find_unique_path_raises stack t e t' :
  stack <> [] ->
  find_unique_path cssselect config stack t = (Raise e, t') ->
  Search.selects_nothing cssselect config e.
Proof.
  intros Hs. unfold find_unique_path.
  destruct (_ <? _); [discriminate|].
  apply first_unique_raises, combinations_nonempty_paths, Hs.
Qed.

Lemma walk_raises limit current :
  forall i stack path t e t' tag attrib children,
  Tree.node_at doc current = Some (Element tag attrib children) ->
  walk doc cssselect config limit current i stack path t = (Raise e, t') ->
  Search.selects_nothing cssselect config e.
Proof.
  induction current as [|k parent IH];
    intros i stack path t e t' tag attrib children Hn;
    cbn [Finder.walk]; rewrite Hn; unfold bind at 1.
  - destruct (build_level_ok doc config limit [] i tag attrib t)
      as (level & ->).
    unfold bind at 1. destruct (_ <=? _).
    + destruct (find_unique_path _ _ _ _) as [[p|e0] t1] eqn:Hf.
      * destruct (_ && _); discriminate.
      * intros [= <- <-]. eapply find_unique_path_raises; [|exact Hf].
        destruct stack; discriminate.
    + cbn. discriminate.
  - destruct (build_level_ok doc config limit (k :: parent) i tag attrib t)
      as (level & ->).
    unfold bind at 1.
    destruct (node_at_parent _ _ _ _ Hn)
      as (ptag & pattrib & pchildren & Hparent).
    destruct (_ <=? _).
    + destruct (find_unique_path _ _ _ _) as [[p|e0] t1] eqn:Hf.
      * destruct (_ && _); [discriminate|]. eapply IH, Hparent.
      * intros [= <- <-]. eapply find_unique_path_raises; [|exact Hf].
        destruct stack; discriminate.
    + cbn. eapply IH, Hparent.
Qed.

Lemma bottom_up_search_raises input limit t e t' tag attrib children :
  Tree.node_at doc input = Some (Element tag attrib children) ->
  bottom_up_search doc cssselect config input limit t = (Raise e, t') ->
  Search.selects_nothing cssselect config e.
Proof.
  intros Hn. unfold bottom_up_search, bind.
  destruct (walk _ _ _ _ _ _ _ _ _) as [[[path stack]|e0] t1] eqn:Hw.
  - destruct (truthy path); [discriminate|].
    eapply walk_levels in Hw as (new & -> & Hlen & _);
      [|exact Hn|reflexivity].
    apply find_unique_path_raises.
    destruct new; [simpl in Hlen; lia|discriminate].
  - intros [= <- <-]. eapply walk_raises; eassumption.
Qed.

Lemma seed_search_raises input t e t' tag attrib children :
  Tree.node_at doc input = Some (Element tag attrib children) ->
  seed_search doc cssselect config input t = (Raise e, t') ->
  Search.selects_nothing cssselect config e.
Proof.
  intros Hn. unfold seed_search.
  unfold bind at 1.
  destruct (bottom_up_search _ _ _ _ (lit "all") _) as [[p1|e1] t1] eqn:H1.
  2:{ intros [= <- <-]. eapply bottom_up_search_raises; eassumption. }
  destruct (truthy p1); [discriminate|]. unfold bind at 1.
  destruct (bottom_up_search _ _ _ _ (lit "two") _) as [[p2|e2] t2] eqn:H2.
  2:{ intros [= <- <-]. eapply bottom_up_search_raises; eassumption. }
  destruct (truthy p2); [discriminate|]. unfold bind at 1.
  destruct (bottom_up_search _ _ _ _ (lit "one") _) as [[p3|e3] t3] eqn:H3.
  2:{ intros [= <- <-]. eapply bottom_up_search_raises; eassumption. }
  destruct (truthy p3); [discriminate|].
  eapply bottom_up_search_raises, Hn.
Qed.

Lemma optimize_loop_raises recur path input :
  path <> [] ->
  (forall p sc t e t',
      recur p sc t = (Raise e, t') ->
      Search.selects_nothing cssselect config e) ->
  forall indices, List.Forall (fun i => (1 <= i)%nat) indices ->
  forall results sc t e t',
    optimize_loop cssselect config recur path input indices results sc t
    = (Raise e, t') ->
    Search.selects_nothing cssselect config e.
Proof.
  intros Hp Hrec indices Hall.
  induction Hall as [|i rest Hi Hrest IH]; intros results sc t e t';
    [discriminate|].
  rewrite optimize_loop_cons. destruct (_ <? _); [discriminate|]. cbv zeta.
  destruct (selector _) as [key|e0] eqn:Hkey.
  2:{ pose proof (removed_nonempty path i Hp Hi) as Hne.
      destruct (firstn i path ++ skipn (i + 1) path); [congruence|].
      discriminate. }
  destruct (visited sc !! key); [apply IH|].
  destruct (cssselect (root_document config) key) as [|n [|m l]] eqn:Hsel.
  - intros [= <- <-]. eexists. split; [reflexivity|exact Hsel].
  - destruct (addr_eqb n input); [|apply IH].
    destruct (recur _ _ _) as [[[found sc2]|e0] t2] eqn:Hr; [apply IH|].
    intros [= <- <-]. eapply Hrec, Hr.
  - apply IH.
Qed.

Lemma positions_from_1 n : List.Forall (fun i => (1 <= i)%nat) (seq 1 n).
Proof. apply List.Forall_forall. intros i Hi. apply in_seq in Hi. lia. Qed.

Lemma optimize_from_raises fuel : forall path input sc t e t',
  optimize_from cssselect config fuel path input sc t = (Raise e, t') ->
  Search.selects_nothing cssselect config e.
Proof.
  induction fuel as [|fuel IH]; intros path input sc t e t';
    cbn [Finder.optimize_from]; destruct (_ && _) eqn:E; try discriminate.
  apply optimize_loop_raises; [| |apply positions_from_1].
  - apply andb_true_iff in E as [E _]. apply Z.ltb_lt in E.
    destruct path; [discriminate|discriminate].
  - intros p sc0 t0 e0 t0'. apply IH.
Qed.

End Errors.

Section FinderErrors.
Variable doc : node.
Variable cssselect : list nat -> list N -> list (list nat).

(** X7.  The engine [cssselect] and the predicates of the options are
    functions here: the engine answers every query with a list of nodes,
    and the exceptions of an engine that rejects a selector text are not
    modelled.  Under that condition, for an element as input, the only
    exceptions [finder] raises are the [ValueError] of [unique], for a
    selector that matches nothing, and the [ValueError] "Selector was not
    found."; the latter is raised when the four search modes end without
    a path.  No index is ever out of range. *)
Theorem finder_raises_value_errors (input : list nat)
    (options : PartialOptions) (t t' : list event) (e : exn)
    (tag : list N) (attrib : list (list N * list N)) (children : list node) :
  Tree.node_at doc input = Some (Element tag attrib children) ->
  finder doc cssselect input options t = (Raise e, t') ->
  Search.selects_nothing cssselect (merge defaults options) e
  \/ (e = ValueError (lit "Selector was not found.")
      /\ exists path,
           seed_search doc cssselect (merge defaults options) input t
           = (Ok path, t')
           /\ truthy path = false).
Proof.
  intros Hn. unfold finder. rewrite Hn.
  destruct (str_eqb tag (lit "html")); [discriminate|].
  unfold find. unfold bind at 1.
  destruct (seed_search _ _ _ _ _) as [[path|e0] t1] eqn:Hs.
  2:{ intros [= <- <-]. left. eapply seed_search_raises; eassumption. }
  destruct path as [[|k rest]|].
  - intros [= <- <-]. right. split; [reflexivity|]. eauto.
  - unfold bind at 1.
    destruct (optimize _ _ _ _ _) as [[found|e0] t2] eqn:Ho.
    + apply optimize_results in Ho.
      destruct (sort found) as [|best others] eqn:Hsort; [discriminate|].
      apply sort_head_In in Hsort. rewrite List.Forall_forall in Ho.
      destruct (Ho _ Hsort) as (css & -> & _). discriminate.
    + intros [= <- <-]. left. unfold optimize, bind in Ho.
      destruct (optimize_from _ _ _ _ _ _ _) as [[[r sc]|e1] t3] eqn:Hf;
        [discriminate|].
      injection Ho as <- <-. eapply optimize_from_raises, Hf.
  - intros [= <- <-]. right. split; [reflexivity|]. eauto.
Qed.

End FinderErrors.

Import Shortening.

Lemma removed_shortening (path : list Knot) i :
  (1 <= i)%nat -> (i + 1 < length path)%nat ->
  shortening path (firstn i path ++ skipn (i + 1) path).
Proof.
  intros H1 H2. unfold shortening.
  replace (i + 1)%nat with (S i) by lia.
  rewrite <- delete_take_drop. split; [apply sublist_delete|].
  rewrite delete_take_drop. split; [|split].
  - destruct path as [|a path]; [simpl in H2; lia|].
    destruct i; [lia|]. reflexivity.
  - rewrite last_app.
    assert (Hd : exists x, last (drop (S i) path) = Some x).
    { apply last_is_Some. intros Hd.
      apply (f_equal (@length _)) in Hd. rewrite length_drop in Hd.
      simpl in Hd. lia. }
    destruct Hd as [x Hx]. rewrite Hx.
    rewrite last_lookup in Hx |- *. rewrite lookup_drop, length_drop in Hx.
    rewrite <- Hx. f_equal. lia.
  - rewrite length_app, length_take, length_drop. lia.
Qed.

Lemma shortening_trans (a b c : list Knot) :
  shortening a b -> shortening b c -> shortening a c.
Proof.
  intros (S1 & H1 & L1 & N1) (S2 & H2 & L2 & N2). unfold shortening.
  split; [etransitivity; eassumption|]. repeat split; try congruence. lia.
Qed.

Section Results.
Variable doc : node.
Variable cssselect : list nat -> list N -> list (list nat).
Variable config : Options.

Lemma optimize_loop_shortenings recur path input :
  2 < len path -> opt_optimized_min_length config < len path ->
  (forall p sc t found sc' t',
      recur p sc t = (Ok (found, sc'), t') ->
      List.Forall (fun q => shortening p q
                            /\ 2 <= len q
                            /\ opt_optimized_min_length config <= len q)
                  found) ->
  forall indices,
    List.Forall (fun i => (1 <= i)%nat /\ (i + 1 < length path)%nat) indices ->
  forall results sc t found sc' t',
    List.Forall (kept config path) results ->
    optimize_loop cssselect config recur path input indices results sc t
    = (Ok (found, sc'), t') ->
    List.Forall (kept config path) found.
Proof.
  intros Hlen Hmin Hrec indices Hall.
  induction Hall as [|i rest [Hi1 Hi2] Hrest IH];
    intros results sc t found sc' t' Hres.
  - intros [= <- <- <-]. exact Hres.
  - rewrite optimize_loop_cons. destruct (_ <? _).
    { intros [= <- <- <-]. exact Hres. }
    cbv zeta. destruct (selector _) as [key|e] eqn:Hkey; [|discriminate].
    destruct (visited sc !! key); [apply IH, Hres|].
    destruct (cssselect (root_document config) key) as [|n [|m l]];
      [discriminate| |apply IH, Hres].
    destruct (addr_eqb n input); [|apply IH, Hres].
    destruct (recur _ _ _) as [[[sub sc2]|e] t2] eqn:Hr; [|discriminate].
    pose proof (removed_shortening path i Hi1 Hi2) as Hshort.
    assert (Hnew : kept config path (firstn i path ++ skipn (i + 1) path)).
    { split; [exact Hshort|]. unfold len in *.
      rewrite length_app, length_take, length_drop. lia. }
    apply IH. apply List.Forall_app. split.
    + apply List.Forall_app. split; [exact Hres|]. constructor; [exact Hnew|].
      constructor.
    + apply Hrec in Hr. eapply List.Forall_impl; [|exact Hr].
      intros q (Hq & Hq2 & Hqm). split; [|auto].
      eapply shortening_trans; eassumption.
Qed.

Lemma positions_inside (n : nat) :
  List.Forall (fun i => (1 <= i)%nat /\ (i + 1 < n)%nat) (seq 1 (n - 2)).
Proof.
  apply List.Forall_forall. intros i Hi. apply in_seq in Hi. lia.
Qed.

Lemma optimize_from_shortenings fuel : forall path input sc t found sc' t',
  optimize_from cssselect config fuel path input sc t
  = (Ok (found, sc'), t') ->
  List.Forall (kept config path) found.
Proof.
  induction fuel as [|fuel IH]; intros path input sc t found sc' t';
    cbn [Finder.optimize_from]; destruct (_ && _) eqn:E;
    try (intros [= <- <- <-]; constructor).
  apply andb_true_iff in E as [E1 E2]. apply Z.ltb_lt in E1, E2.
  apply optimize_loop_shortenings; auto using positions_inside.
  intros p sc0 t0 f0 sc0' t0'. apply IH.
Qed.

Lemma optimize_kept path input t found t' :
  optimize cssselect config path input t = (Ok found, t') ->
  List.Forall (kept config path) found.
Proof.
  unfold optimize. intros H.
  apply bind_Ok in H as ([res sc'] & t1 & H & [= <- <-]).
  eapply optimize_from_shortenings, H.
Qed.

(** X8.  Every path the optimizer returns is the given path with knots
    taken out of its inside: its knots are knots of the given path in
    their order, its first knot (the target) and its last knot are those
    of the given path, and it is shorter, but has two knots at least and
    not fewer than [optimized_min_length]; it renders to a selector that
    matches the input and no other node. *)
Theorem optimize_returns_shortenings (path : list Knot) (input : list nat)
    (t t' : list event) (found : list (list Knot)) :
  optimize cssselect config path input t = (Ok found, t') ->
  List.Forall
    (fun p => shortening path p
              /\ 2 <= len p
              /\ opt_optimized_min_length config <= len p
              /\ matches_only cssselect config input p)
    found.
Proof.
  intros H. pose proof (optimize_results _ _ _ _ _ _ _ H) as Hm.
  apply optimize_kept in H.
  rewrite List.Forall_forall in *. intros p Hp.
  destruct (H p Hp) as (Hs & H2 & Ho). auto.
Qed.

(** *** The number of queries *)

Lemma total_app t1 t2 :
  unique_query_total (t1 ++ t2)
  = unique_query_total t1 + unique_query_total t2.
Proof.
  unfold unique_query_total, len.
  rewrite List.filter_app, length_app. lia.
Qed.

Lemma tries_left_nonneg sc : 0 <= tries_left config sc.
Proof. unfold tries_left. lia. Qed.

Lemma optimize_loop_budget recur path input :
  (forall p sc, within_budget config (recur p sc) sc) ->
  forall indices results sc,
    within_budget config
      (optimize_loop cssselect config recur path input indices results sc) sc.
Proof.
  intros Hrec indices.
  assert (Hdone : forall (results : list (list Knot)) sc t r t',
             (Ok (results, sc), t) = (r, t') ->
             unique_query_total t'
             <= unique_query_total t + tries_left config sc
             /\ forall found sc',
                  r = Ok (found, sc') ->
                  unique_query_total t' + tries_left config sc'
                  <= unique_query_total t + tries_left config sc).
  { intros results sc t r t' [= <- <-]. pose proof (tries_left_nonneg sc).
    split; [lia|]. intros ? ? [= <- <-]. lia. }
  induction indices as [|i rest IH]; intros results sc t r t'.
  - apply Hdone.
  - rewrite optimize_loop_cons.
    destruct (Z.ltb_spec (opt_max_number_of_tries config) (counter sc))
      as [Hover|Hin]; [apply Hdone|].
    cbv zeta.
    assert (Hstep : forall v,
               tries_left config (mkScope (counter sc + 1) v)
               = tries_left config sc - 1).
    { intros v. unfold tries_left. cbn [counter]. lia. }
    pose proof (tries_left_nonneg (mkScope (counter sc + 1) (visited sc)))
      as Hnn. rewrite Hstep in Hnn.
    assert (Hone : forall key,
               unique_query_total (t ++ [QueryUnique key])
               = unique_query_total t + 1).
    { intros key. rewrite total_app. reflexivity. }
    assert (Htwo : forall key,
               unique_query_total ((t ++ [QueryUnique key])
                                   ++ [QuerySame key])
               = unique_query_total t + 1).
    { intros key. rewrite total_app, Hone.
      change (unique_query_total [QuerySame key]) with 0. lia. }
    destruct (selector _) as [key|e] eqn:Hkey.
    2:{ intros [= <- <-]. split; [lia|discriminate]. }
    destruct (visited sc !! key).
    { intros H. apply IH in H as [H1 H2]. rewrite Hstep in H1, H2.
      split; [lia|]. intros found sc' Hr. specialize (H2 _ _ Hr). lia. }
    destruct (cssselect (root_document config) key) as [|n [|m l]].
    + intros [= <- <-]. rewrite Hone. split; [lia|discriminate].
    + destruct (addr_eqb n input).
      * destruct (recur _ _ _) as [[[found sc2]|e] t2] eqn:Hr.
        -- apply Hrec in Hr as [_ Hr]. specialize (Hr _ _ eq_refl).
           rewrite Htwo, Hstep in Hr.
           intros H. apply IH in H as [H1 H2].
           split; [lia|]. intros f s Hfs. specialize (H2 _ _ Hfs). lia.
        -- apply Hrec in Hr as [Hr _]. rewrite Htwo, Hstep in Hr.
           intros [= <- <-]. split; [lia|discriminate].
      * intros H. apply IH in H as [H1 H2]. rewrite Htwo, Hstep in H1, H2.
        split; [lia|]. intros f s Hfs. specialize (H2 _ _ Hfs). lia.
    + intros H. apply IH in H as [H1 H2]. rewrite Hone, Hstep in H1, H2.
      split; [lia|]. intros f s Hfs. specialize (H2 _ _ Hfs). lia.
Qed.

Lemma optimize_from_budget fuel : forall path input sc,
  within_budget config (optimize_from cssselect config fuel path input sc) sc.
Proof.
  induction fuel as [|fuel IH]; intros path input sc t r t';
    cbn [Finder.optimize_from]; destruct (_ && _);
    try (intros [= <- <-]; pose proof (tries_left_nonneg sc);
         split; [lia|]; intros ? ? [= <- <-]; lia).
  apply optimize_loop_budget. intros p sc0. apply IH.
Qed.

(** X9.  One run of the optimizer has [unique] query the engine
    [max_number_of_tries + 1] times at most, and not at all when
    [max_number_of_tries] is negative, whether the run returns or
    raises. *)
Theorem optimize_query_budget (path : list Knot) (input : list nat)
    (t t' : list event) (r : result (list (list Knot))) :
  optimize cssselect config path input t = (r, t') ->
  unique_query_total t'
  <= unique_query_total t + Z.max 0 (opt_max_number_of_tries config + 1).
Proof.
  unfold optimize, bind.
  destruct (optimize_from _ _ _ _ _ _ _) as [r0 t0] eqn:Hrun.
  apply optimize_from_budget in Hrun as [Hrun _].
  unfold tries_left in Hrun. cbn [counter fresh_scope] in Hrun.
  intros H. assert (t' = t0) as ->
    by (destruct r0 as [[? ?]|?]; unfold ret in H; congruence).
  lia.
Qed.

End Results.

Import Distinct.

Lemma grows_None (v1 v2 : gmap (list N) bool) key :
  grows v1 v2 -> v2 !! key = None -> v1 !! key = None.
Proof.
  intros Hg Hk. destruct (v1 !! key) eqn:E; [|reflexivity].
  exfalso. apply (Hg key); [rewrite E; discriminate|exact Hk].
Qed.

Lemma fresh_texts_extend (v0 v1 v2 v3 : gmap (list N) bool)
    results keys new_path key found keys' :
  grows v0 v1 ->
  fresh_texts v0 v1 results keys ->
  selector new_path = Ok key ->
  v1 !! key = None ->
  v2 = <[key := true]> v1 ->
  grows v2 v3 ->
  fresh_texts v2 v3 found keys' ->
  grows v0 v3
  /\ fresh_texts v0 v3 ((results ++ [new_path]) ++ found)
       ((keys ++ [key]) ++ keys').
Proof.
  intros G01 (F1 & N1 & A1) Hkey Hnone -> G23 (F2 & N2 & A2).
  assert (G12 : grows v1 (<[key := true]> v1)).
  { intros k Hk. destruct (decide (key = k)) as [->|Hne].
    - rewrite lookup_insert_eq. discriminate.
    - rewrite lookup_insert_ne by exact Hne. exact Hk. }
  assert (G03 : grows v0 v3) by (intros k Hk; auto).
  split; [exact G03|]. split; [|split].
  - apply Forall2_app; [apply Forall2_app|]; auto.
  - rewrite List.Forall_forall in A1, A2.
    apply NoDup_app. split; [|split; [|exact N2]].
    + apply NoDup_app. split; [exact N1|]. split; [|apply NoDup_singleton].
      intros k Hk Hin. apply list_elem_of_singleton in Hin. subst k.
      apply list_elem_of_In in Hk. destruct (A1 _ Hk) as [_ Hv]. congruence.
    + intros k Hk Hk'. apply list_elem_of_In in Hk'.
      destruct (A2 _ Hk') as [Hn _].
      apply elem_of_app in Hk as [Hk|Hk].
      * apply list_elem_of_In in Hk. destruct (A1 _ Hk) as [_ Hv].
        apply Hv. exact (grows_None _ _ _ G12 Hn).
      * apply list_elem_of_singleton in Hk. subst k.
        rewrite lookup_insert_eq in Hn. discriminate.
  - rewrite List.Forall_forall in A1, A2 |- *. intros k Hk.
    apply in_app_or in Hk as [Hk|Hk]; [apply in_app_or in Hk as [Hk|Hk]|].
    + destruct (A1 _ Hk) as [Hn Hv]. split; [exact Hn|]. auto.
    + destruct Hk as [<-|[]]. split.
      * exact (grows_None _ _ _ G01 Hnone).
      * apply G23. rewrite lookup_insert_eq. discriminate.
    + destruct (A2 _ Hk) as [Hn Hv]. split; [|exact Hv].
      exact (grows_None _ _ _ G01 (grows_None _ _ _ G12 Hn)).
Qed.

Section DistinctTexts.
Variable doc : node.
Variable cssselect : list nat -> list N -> list (list nat).
Variable config : Options.

Lemma optimize_loop_fresh recur path input v0 :
  (forall p sc, returns_fresh (recur p sc) sc) ->
  forall indices results sc t found sc' t' keys,
    grows v0 (visited sc) ->
    fresh_texts v0 (visited sc) results keys ->
    optimize_loop cssselect config recur path input indices results sc t
    = (Ok (found, sc'), t') ->
    grows v0 (visited sc')
    /\ exists keys', fresh_texts v0 (visited sc') found keys'.
Proof.
  intros Hrec indices.
  induction indices as [|i rest IH];
    intros results sc t found sc' t' keys Hg Hf.
  - intros [= <- <- <-]. eauto.
  - rewrite optimize_loop_cons. destruct (_ <? _).
    { intros [= <- <- <-]. eauto. }
    cbv zeta. destruct (selector _) as [key|e] eqn:Hkey; [|discriminate].
    destruct (visited sc !! key) eqn:Hv; [eapply IH; eassumption|].
    destruct (cssselect (root_document config) key) as [|n [|m l]];
      [discriminate| |eapply IH; eassumption].
    destruct (addr_eqb n input); [|eapply IH; eassumption].
    destruct (recur _ _ _) as [[[sub sc2]|e] t2] eqn:Hr; [|discriminate].
    apply Hrec in Hr as (Hg2 & keys2 & Hf2). cbn [visited] in Hg2, Hf2.
    destruct (fresh_texts_extend _ _ _ _ _ _ _ _ _ _
                Hg Hf Hkey Hv eq_refl Hg2 Hf2) as [Hg3 Hf3].
    eapply IH; eassumption.
Qed.

Lemma grows_refl (v : gmap (list N) bool) : grows v v.
Proof. intros k Hk. exact Hk. Qed.

Lemma fresh_texts_nil (v : gmap (list N) bool) : fresh_texts v v [] [].
Proof. split; [constructor|]. split; constructor. Qed.

Lemma optimize_from_fresh fuel : forall path input sc,
  returns_fresh (optimize_from cssselect config fuel path input sc) sc.
Proof.
  induction fuel as [|fuel IH]; intros path input sc t found sc' t';
    cbn [Finder.optimize_from]; destruct (_ && _);
    try (intros [= <- <- <-]; split;
         [apply grows_refl|exists []; apply fresh_texts_nil]).
  intros H.
  eapply optimize_loop_fresh in H;
    [exact H| |apply grows_refl|apply fresh_texts_nil].
  intros p sc0. apply IH.
Qed.

(** X10.  The paths one run of the optimizer returns render to
    pairwise different selector texts. *)
Theorem optimize_returns_distinct_texts (path : list Knot)
    (input : list nat) (t t' : list event) (found : list (list Knot)) :
  optimize cssselect config path input t = (Ok found, t') ->
  exists keys,
    Forall2 (fun p key => selector p = Ok key) found keys /\ NoDup keys.
Proof.
  unfold optimize. intros H.
  apply bind_Ok in H as ([res sc'] & t1 & H & [= <- <-]).
  apply optimize_from_fresh in H as (_ & keys & Hf & Hn & _).
  eauto.
Qed.

(** X11.  When the search has found the seed path, [find] returns the
    seed path rendered if the optimizer returns nothing, and otherwise
    the rendering of a path of least penalty among those the optimizer
    returns, which matches the input and no other node. *)
Theorem find_picks_cheapest (input : list nat) (seed : list Knot)
    (found : list (list Knot)) (t t1 t2 : list event) :
  seed <> [] ->
  seed_search doc cssselect config input t = (Ok (Some seed), t1) ->
  optimize cssselect config seed input t1 = (Ok found, t2) ->
  (found = [] ->
   find doc cssselect config input t = (selector seed, t2))
  /\ (found <> [] ->
      exists best css,
        In best found
        /\ (forall q, In q found -> Qle (penalty best) (penalty q))
        /\ selector best = Ok css
        /\ cssselect (root_document config) css = [input]
        /\ find doc cssselect config input t = (Ok css, t2)).
Proof.
  intros Hne Hseed Hopt.
  assert (Hfind : find doc cssselect config input t
                  = (selector match sort found with
                              | best :: _ => best
                              | [] => seed
                              end, t2)).
  { unfold find, bind. rewrite Hseed.
    destruct seed as [|k rest]; [congruence|]. rewrite Hopt. reflexivity. }
  split.
  - intros ->. exact Hfind.
  - intros Hfound.
    destruct (sort found) as [|best others] eqn:Hsort.
    { apply (f_equal (@length _)) in Hsort. rewrite sort_length in Hsort.
      destruct found; [congruence|discriminate]. }
    pose proof (sort_head_In _ _ _ Hsort) as Hin.
    pose proof (optimize_results _ _ _ _ _ _ _ Hopt) as Hm.
    rewrite List.Forall_forall in Hm.
    destruct (Hm _ Hin) as (css & Hcss & Hsel).
    exists best, css. repeat split; auto.
    + intros q Hq.
      apply (Permutation_in _ (Permutation_sym (sort_perm found))) in Hq.
      rewrite Hsort in Hq. destruct Hq as [<-|Hq]; [apply Qle_refl|].
      pose proof (sort_sorted found) as Hs. rewrite Hsort in Hs.
      inversion Hs as [|? ? _ Hall]; subst.
      rewrite List.Forall_forall in Hall. apply Hall, Hq.
    + rewrite Hfind, Hcss. reflexivity.
Qed.

End DistinctTexts.

Import Shortening.

(** ** Penalties *)

Lemma penalty_loop l : forall acc,
  Qeq (fold_left Qplus l acc) (Qplus acc (fold_left Qplus l (0 # 1)%Q)).
Proof.
  induction l as [|x l IH]; intros acc; simpl.
  - lra.
  - rewrite (IH (Qplus acc x)), (IH (Qplus (0 # 1) x)). lra.
Qed.

Lemma penalty_cons k path :
  Qeq (penalty (k :: path)) (Qplus (knot_penalty k) (penalty path)).
Proof.
  unfold penalty. simpl. rewrite penalty_loop. lra.
Qed.

Lemma penalty_nonneg path :
  List.Forall (fun k => Qle (0 # 1) (knot_penalty k)) path ->
  Qle (0 # 1) (penalty path).
Proof.
  induction 1 as [|k path Hk _ IH].
  - unfold penalty. simpl. lra.
  - rewrite penalty_cons. lra.
Qed.

Lemma penalty_sublist p path :
  sublist p path ->
  List.Forall (fun k => Qle (0 # 1) (knot_penalty k)) path ->
  Qle (penalty p) (penalty path).
Proof.
  induction 1 as [|k p path _ IH|k p path _ IH]; intros Hall.
  - lra.
  - inversion Hall; subst. rewrite !penalty_cons. specialize (IH H2). lra.
  - inversion Hall; subst. rewrite penalty_cons. specialize (IH H2). lra.
Qed.

Section Penalties.
Variable doc : node.
Variable cssselect : list nat -> list N -> list (list nat).
Variable config : Options.

(** X13.  The candidates of an element, before the search mode is
    applied, are of one kind: not empty, all at level 0, and all of the
    same penalty.  Each kind has its penalty: the id candidate 0, every
    attribute candidate 1/2, every class candidate 1, the tag candidate 2
    and the wildcard 3; and the candidates are the first kind, in that
    order, that has any.  So the first candidate, the one the modes "two"
    and "one" keep, is a cheapest one. *)
Theorem candidates_of_one_kind (tag : list N)
    (attrib : list (list N * list N)) :
  candidates config tag attrib <> []
  /\ (exists c,
        In c [(0 # 1)%Q; (1 # 2)%Q; (1 # 1)%Q; (2 # 1)%Q; (3 # 1)%Q]
        /\ List.Forall (fun k => knot_penalty k = c /\ knot_level k = 0)
             (candidates config tag attrib))
  /\ (forall k,
        id config attrib = Some k ->
        knot_penalty k = (0 # 1)%Q
        /\ exists element_id,
             Tree.get attrib (lit "id") = Some element_id
             /\ knot_name k = lit "#" ++ Escaper.css_escape element_id true)
  /\ List.Forall (fun k => knot_penalty k = (1 # 2)%Q) (attr config attrib)
  /\ List.Forall (fun k => knot_penalty k = (1 # 1)%Q)
       (class_names config attrib)
  /\ (forall k,
        tag_name config tag = Some k -> k = mkKnot tag (2 # 1) 0)
  /\ any = mkKnot (lit "*") (3 # 1) 0
  /\ candidates config tag attrib
     = match id config attrib with
       | Some k => [k]
       | None =>
           match attr config attrib with
           | (_ :: _) as group => group
           | [] =>
               match class_names config attrib with
               | (_ :: _) as group => group
               | [] =>
                   match tag_name config tag with
                   | Some k => [k]
                   | None => [any]
                   end
               end
           end
       end.
Proof.
  split; [apply candidates_nonempty|].
  split.
  2:{ repeat apply conj.
      - intros k Hid. unfold id in Hid.
        destruct (Tree.get attrib (lit "id")) as [element_id|];
          [|discriminate].
        destruct (_ && _); [|discriminate]. injection Hid as <-.
        split; [reflexivity|]. exists element_id. split; reflexivity.
      - apply List.Forall_forall. intros k Hk. unfold attr in Hk.
        apply in_map_iff in Hk as (x & <- & _). reflexivity.
      - apply List.Forall_forall. intros k Hk. unfold class_names in Hk.
        apply in_map_iff in Hk as (x & <- & _). reflexivity.
      - intros k Htag. unfold tag_name in Htag.
        destruct (opt_tag_name config tag); [|discriminate].
        injection Htag as <-. reflexivity.
      - reflexivity.
      - apply candidates_first_group. }
  rewrite candidates_first_group.
  destruct (id config attrib) as [k|] eqn:Hid.
  { exists (0 # 1)%Q. split; [simpl; auto|]. constructor; [|constructor].
    unfold id in Hid. destruct (Tree.get attrib (lit "id")); [|discriminate].
    destruct (_ && _); [|discriminate]. injection Hid as <-. auto. }
  destruct (attr config attrib) as [|a l] eqn:Hattr.
  2:{ exists (1 # 2)%Q. split; [simpl; auto|]. rewrite <- Hattr.
      apply List.Forall_forall. intros k Hk. unfold attr in Hk.
      apply in_map_iff in Hk as (x & <- & _). auto. }
  destruct (class_names config attrib) as [|a l] eqn:Hcls.
  2:{ exists (1 # 1)%Q. split; [simpl; auto|]. rewrite <- Hcls.
      apply List.Forall_forall. intros k Hk. unfold class_names in Hk.
      apply in_map_iff in Hk as (x & <- & _). auto. }
  destruct (tag_name config tag) as [k|] eqn:Htag.
  { exists (2 # 1)%Q. split; [simpl; auto|]. constructor; [|constructor].
    unfold tag_name in Htag. destruct (opt_tag_name config tag);
      [|discriminate]. injection Htag as <-. auto. }
  exists (3 # 1)%Q. split; [simpl; auto 6|]. constructor; [|constructor]. auto.
Qed.

Lemma candidates_nonneg tag attrib :
  List.Forall (fun k => Qle (0 # 1) (knot_penalty k))
    (candidates config tag attrib).
Proof.
  rewrite candidates_first_group.
  assert (Hq : forall n d, Qle (0 # 1) (Z.pos n # d))
    by (intros; unfold Qle; simpl; lia).
  destruct (id config attrib) as [k|] eqn:Hid.
  { constructor; [|constructor].
    unfold id in Hid. destruct (Tree.get attrib (lit "id")); [|discriminate].
    destruct (_ && _); [|discriminate]. injection Hid as <-.
    unfold Qle; simpl; lia. }
  destruct (attr config attrib) as [|a l] eqn:Hattr.
  2:{ rewrite <- Hattr. apply List.Forall_forall. intros k Hk.
      unfold attr in Hk. apply in_map_iff in Hk as (x & <- & _). apply Hq. }
  destruct (class_names config attrib) as [|a l] eqn:Hcls.
  2:{ rewrite <- Hcls. apply List.Forall_forall. intros k Hk.
      unfold class_names in Hk. apply in_map_iff in Hk as (x & <- & _).
      apply Hq. }
  destruct (tag_name config tag) as [k|] eqn:Htag.
  { constructor; [|constructor]. unfold tag_name in Htag.
    destruct (opt_tag_name config tag); [|discriminate].
    injection Htag as <-. apply Hq. }
  constructor; [apply Hq|constructor].
Qed.

Lemma nth_child_nonneg k n :
  Qle (0 # 1) (knot_penalty k) -> Qle (0 # 1) (knot_penalty (nth_child k n)).
Proof. unfold nth_child. cbn [knot_penalty]. lra. Qed.

Lemma limit_level_nonneg limit level nth t level' t' :
  List.Forall (fun k => Qle (0 # 1) (knot_penalty k)) level ->
  limit_level limit level nth t = (Ok level', t') ->
  List.Forall (fun k => Qle (0 # 1) (knot_penalty k)) level'.
Proof.
  intros Hall. unfold limit_level.
  assert (Hany : Qle (0 # 1) (knot_penalty any)) by (unfold Qle; simpl; lia).
  destruct (str_eqb limit (lit "all")).
  { destruct (truthy_nth nth); intros [= <- <-]; [|exact Hall].
    apply List.Forall_app. split; [exact Hall|].
    apply List.Forall_forall. intros k Hk.
    apply in_map_iff in Hk as (x & <- & Hx). apply filter_In in Hx as [Hx _].
    rewrite List.Forall_forall in Hall. apply nth_child_nonneg, Hall, Hx. }
  assert (Hfirst : List.Forall (fun k => Qle (0 # 1) (knot_penalty k))
                     (firstn 1 level)).
  { destruct level as [|k l]; [constructor|]. inversion Hall; subst.
    constructor; [assumption|constructor]. }
  destruct (str_eqb limit (lit "two")).
  { destruct (truthy_nth nth); [|intros [= <- <-]; exact Hfirst].
    destruct level as [|k l]; [discriminate|]. cbn. intros [= <- <-].
    inversion Hall; subst. repeat constructor; auto using nth_child_nonneg. }
  destruct (str_eqb limit (lit "one")).
  { destruct (truthy_nth nth); [|intros [= <- <-]; exact Hfirst].
    destruct level as [|k l]; [discriminate|]. cbn.
    inversion Hall; subst.
    destruct (dispensable_nth k); intros [= <- <-];
      repeat constructor; auto using nth_child_nonneg. }
  destruct (str_eqb limit (lit "none")).
  { destruct (truthy_nth nth); intros [= <- <-];
      repeat constructor; auto using nth_child_nonneg. }
  intros [= <- <-]. exact Hall.
Qed.

Lemma build_level_nonneg limit current i tag attrib t level t' :
  build_level doc config limit current i tag attrib t = (Ok level, t') ->
  List.Forall (fun k => Qle (0 # 1) (knot_penalty k)) level.
Proof.
  unfold build_level. intros H.
  apply bind_Ok in H as (l & t1 & Hl & [= <- <-]).
  apply limit_level_nonneg in Hl; [|apply candidates_nonneg].
  apply List.Forall_forall. intros k Hk.
  apply in_map_iff in Hk as (x & <- & Hx).
  rewrite List.Forall_forall in Hl. exact (Hl x Hx).
Qed.

(** X12.  No path the optimizer returns for a seed path costs more than
    the seed path: the penalties of the knots of a seed path are not
    negative, and the optimizer only takes knots out. *)
Theorem optimize_never_costs_more (input : list nat) (limit : list N)
    (seed : list Knot) (found : list (list Knot)) (t t1 t2 t3 : list event)
    (tag : list N) (attrib : list (list N * list N)) (children : list node) :
  Tree.node_at doc input = Some (Element tag attrib children) ->
  bottom_up_search doc cssselect config input limit t = (Ok (Some seed), t1) ->
  optimize cssselect config seed input t2 = (Ok found, t3) ->
  List.Forall (fun k => Qle (0 # 1) (knot_penalty k)) seed
  /\ List.Forall (fun p => Qle (penalty p) (penalty seed)) found.
Proof.
  intros Hn Hseed Hopt.
  assert (Hnonneg : List.Forall (fun k => Qle (0 # 1) (knot_penalty k)) seed).
  { destruct (bottom_up_search_levels _ _ _ _ _ _ _ _ _ _ _ Hn Hseed)
      as (levels & Hall & _ & Hbuilt & _).
    apply List.Forall_forall. intros k Hk.
    apply list_elem_of_In, list_elem_of_lookup in Hk as [j Hj].
    destruct (Forall2_lookup_l _ _ _ _ _ Hall Hj) as (L & HL & Hin).
    destruct (Hbuilt _ _ HL) as (tg & at' & ch & _ & Hb).
    pose proof (build_level_nonneg _ _ _ _ _ _ _ _ (Hb [])) as HLn.
    rewrite List.Forall_forall in HLn. apply HLn, Hin. }
  split; [exact Hnonneg|].
  apply optimize_kept in Hopt.
  eapply List.Forall_impl; [|exact Hopt].
  intros p ((Hsub & _) & _). apply penalty_sublist; assumption.
Qed.

End Penalties.

Import Shift.

Section Modes.
Variable doc : node.
Variable cssselect : list nat -> list N -> list (list nat).
Variable config : Options.

(** X14.  The levels of the other three modes, for an element whose
    first candidate is [k].  In the mode "two" the level is [k] and, when
    the element has a position, the position-qualified [k], whether [k]
    is dispensable or not.  In the mode "one" it is the position-qualified
    [k] when the element has a position and [k] is dispensable, and [k]
    otherwise.  In the mode "none" it is the wildcard, position-qualified
    when the element has a position.  Every knot carries the level
    index. *)
Theorem narrow_mode_levels (current : list nat) (i : Z) (tag : list N)
    (attrib : list (list N * list N)) (t : list event)
    (k : Knot) (rest : list Knot) :
  candidates config tag attrib = k :: rest ->
  build_level doc config (lit "two") current i tag attrib t
  = (Ok (List.map (set_level i)
           match index doc current with
           | Some n => [k; nth_child k n]
           | None => [k]
           end), t)
  /\ build_level doc config (lit "one") current i tag attrib t
     = (Ok (List.map (set_level i)
              match index doc current with
              | Some n => if dispensable_nth k then [nth_child k n] else [k]
              | None => [k]
              end), t)
  /\ build_level doc config (lit "none") current i tag attrib t
     = (Ok (List.map (set_level i)
              match index doc current with
              | Some n => [nth_child any n]
              | None => [any]
              end), t).
Proof.
  intros Hk. unfold build_level, limit_level.
  rewrite truthy_nth_index, Hk. split; [|split].
  - change (str_eqb (lit "two") (lit "all")) with false.
    change (str_eqb (lit "two") (lit "two")) with true. cbv iota.
    destruct (index doc current); reflexivity.
  - change (str_eqb (lit "one") (lit "all")) with false.
    change (str_eqb (lit "one") (lit "two")) with false.
    change (str_eqb (lit "one") (lit "one")) with true. cbv iota.
    destruct (index doc current); [|reflexivity].
    unfold bind, lift, ret. cbn [firstn first].
    destruct (dispensable_nth k); reflexivity.
  - change (str_eqb (lit "none") (lit "all")) with false.
    change (str_eqb (lit "none") (lit "two")) with false.
    change (str_eqb (lit "none") (lit "one")) with false.
    change (str_eqb (lit "none") (lit "none")) with true. cbv iota.
    destruct (index doc current); reflexivity.
Qed.

(** *** A comment as input *)

Lemma or_zero_id z : or_zero z = z.
Proof. unfold or_zero. destruct (Z.eqb_spec z 0); congruence. Qed.

Lemma selector_loop_shifted rest : forall node query,
  selector_loop (List.map raise_level rest) (raise_level node) query
  = selector_loop rest node query.
Proof.
  induction rest as [|k rest IH]; intros node query; [reflexivity|].
  cbn [List.map selector_loop]. rewrite IH. f_equal.
  cbn [raise_level knot_level knot_name]. rewrite !or_zero_id.
  replace (knot_level node + 1 =? knot_level k + 1 - 1)
    with (knot_level node =? knot_level k - 1); [reflexivity|].
  destruct (Z.eqb_spec (knot_level node) (knot_level k - 1));
    destruct (Z.eqb_spec (knot_level node + 1) (knot_level k + 1 - 1));
    try reflexivity; lia.
Qed.

Lemma selector_shifted p : selector (List.map raise_level p) = selector p.
Proof.
  destruct p as [|k rest]; [reflexivity|].
  cbn [List.map selector]. rewrite selector_loop_shifted. reflexivity.
Qed.

Lemma penalty_shifted p : penalty (List.map raise_level p) = penalty p.
Proof. unfold penalty. rewrite List.map_map. reflexivity. Qed.

Lemma insert_sorted_shifted x l :
  insert_sorted (List.map raise_level x) (List.map (List.map raise_level) l)
  = List.map (List.map raise_level) (insert_sorted x l).
Proof.
  induction l as [|y l IH]; [reflexivity|].
  cbn [List.map insert_sorted]. rewrite !penalty_shifted.
  destruct (Qle_bool _ _); [reflexivity|]. rewrite IH. reflexivity.
Qed.

Lemma sort_shifted l :
  sort (List.map (List.map raise_level) l)
  = List.map (List.map raise_level) (sort l).
Proof.
  induction l as [|x l IH]; [reflexivity|].
  cbn [List.map sort]. rewrite IH. apply insert_sorted_shifted.
Qed.

Lemma combinations_shifted stack : forall acc,
  combinations (List.map (List.map raise_level) stack)
    (List.map raise_level acc)
  = List.map (List.map raise_level) (combinations stack acc).
Proof.
  induction stack as [|level stack IH]; intros acc; [reflexivity|].
  cbn [List.map combinations].
  induction level as [|k level IHl]; [reflexivity|].
  cbn [List.map flat_map]. rewrite List.map_app, <- IHl, <- IH.
  rewrite List.map_app. reflexivity.
Qed.

Lemma unique_shifted p t :
  unique cssselect config (List.map raise_level p) t
  = unique cssselect config p t.
Proof. rewrite !unique_eq, selector_shifted. reflexivity. Qed.

Lemma first_unique_shifted paths : forall t,
  first_unique cssselect config (List.map (List.map raise_level) paths) t
  = match first_unique cssselect config paths t with
    | (Ok found, t') => (Ok (option_map (List.map raise_level) found), t')
    | (Raise e, t') => (Raise e, t')
    end.
Proof.
  induction paths as [|c paths IH]; intros t; [reflexivity|].
  cbn [List.map first_unique]. unfold bind. rewrite unique_shifted.
  destruct (unique cssselect config c t) as [[[]|e] t1];
    [reflexivity|apply IH|reflexivity].
Qed.

Lemma find_unique_path_shifted stack t :
  find_unique_path cssselect config (List.map (List.map raise_level) stack) t
  = match find_unique_path cssselect config stack t with
    | (Ok found, t') => (Ok (option_map (List.map raise_level) found), t')
    | (Raise e, t') => (Raise e, t')
    end.
Proof.
  unfold find_unique_path.
  pose proof (combinations_shifted stack []) as Hc. cbn [List.map] in Hc.
  rewrite Hc, sort_shifted.
  unfold len. rewrite length_map.
  destruct (_ <? _); [reflexivity|]. apply first_unique_shifted.
Qed.

Lemma build_level_shifted limit current i tag attrib t :
  build_level doc config limit current (i + 1) tag attrib t
  = match build_level doc config limit current i tag attrib t with
    | (Ok level, t') => (Ok (List.map raise_level level), t')
    | (Raise e, t') => (Raise e, t')
    end.
Proof.
  unfold build_level, bind.
  destruct (limit_level _ _ _ _) as [[l|e] t1]; [|reflexivity].
  unfold ret. do 2 f_equal. rewrite List.map_map.
  apply map_ext. intros k. reflexivity.
Qed.

Lemma truthy_shifted path :
  truthy (option_map (List.map raise_level) path) = truthy path.
Proof. destruct path as [[|k p]|]; reflexivity. Qed.

Lemma walk_shifted limit current : forall i stack path t,
  walk doc cssselect config limit current (i + 1)
    (List.map (List.map raise_level) stack)
    (option_map (List.map raise_level) path) t
  = match walk doc cssselect config limit current i stack path t with
    | (Ok (path', stack'), t') =>
        (Ok (option_map (List.map raise_level) path',
             List.map (List.map raise_level) stack'), t')
    | (Raise e, t') => (Raise e, t')
    end.
Proof.
  induction current as [|k parent IH]; intros i stack path t;
    cbn [Finder.walk];
    destruct (Tree.node_at doc _) as [[tag attrib children|text]|];
    try reflexivity.
  - unfold bind at 1 3. rewrite build_level_shifted.
    destruct (build_level _ _ _ _ _ _ _ _) as [[level|e] t1]; [|reflexivity].
    replace (List.map
        (List.map raise_level) stack ++ [List.map raise_level level])
      with (List.map (List.map raise_level) (stack ++ [level]))
      by (rewrite List.map_app; reflexivity).
    unfold len. rewrite length_map. unfold bind at 1 2.
    destruct (_ <=? _).
    + rewrite find_unique_path_shifted.
      destruct (find_unique_path _ _ _ _) as [[found|e] t2]; [|reflexivity].
      rewrite truthy_shifted. cbn [andb]. destruct (truthy found); reflexivity.
    + cbn. reflexivity.
  - unfold bind at 1 3. rewrite build_level_shifted.
    destruct (build_level _ _ _ _ _ _ _ _) as [[level|e] t1]; [|reflexivity].
    replace (List.map
        (List.map raise_level) stack ++ [List.map raise_level level])
      with (List.map (List.map raise_level) (stack ++ [level]))
      by (rewrite List.map_app; reflexivity).
    unfold len. rewrite length_map. unfold bind at 1 2.
    destruct (_ <=? _).
    + rewrite find_unique_path_shifted.
      destruct (find_unique_path _ _ _ _) as [[found|e] t2]; [|reflexivity].
      rewrite truthy_shifted. cbn [andb].
      destruct (truthy found); [reflexivity|]. apply IH.
    + cbn. apply IH.
  - apply IH.
Qed.

(** X15.  For a comment with a parent, [bottom_up_search] is the search
    for the parent with every level one higher: the same queries in the
    same order, the same exceptions, and the path found for the parent
    with the levels of its knots raised by one, which renders to the same
    selector. *)
Theorem comment_is_searched_as_its_parent (k : nat) (parent : list nat)
    (text : list N) (limit : list N) (t : list event) :
  Tree.node_at doc (k :: parent) = Some (Comment text) ->
  bottom_up_search doc cssselect config (k :: parent) limit t
  = raise_path (bottom_up_search doc cssselect config parent limit t)
  /\ forall p, selector (List.map raise_level p) = selector p.
Proof.
  intros Hn. split; [|apply selector_shifted].
  unfold bottom_up_search, bind. cbn [Finder.walk]. rewrite Hn.
  pose proof (walk_shifted limit parent 0 [] None t) as Hw.
  cbn [List.map option_map] in Hw. change (0 + 1) with 1 in *. rewrite Hw.
  destruct (walk doc cssselect config limit parent 0 [] None t)
    as [[[path stack]|e] t1]; [|reflexivity].
  rewrite truthy_shifted. destruct (truthy path) eqn:Ht.
  - destruct path as [[|a p]|]; try discriminate. reflexivity.
  - rewrite find_unique_path_shifted.
    destruct (find_unique_path _ _ _ _) as [[[p|]|e] t2]; reflexivity.
Qed.

End Modes.

(** ** Instances of the further theorems *)

Lemma class_names_tokens_witness :
  class_names defaults [(lit "class", lit "x")]
  = [mkKnot (lit ".x") (1 # 1) 0]
  /\ Tree.split (lit "a" ++ lit " b") = lit "a" :: Tree.split (lit " b")
  /\ Tree.split (32%N :: lit "b") = Tree.split (lit "b")
  /\ In (mkKnot (lit ".b") (1 # 1) 0)
        (class_names defaults [(lit "class", lit "a b")]).
Proof.
  destruct (class_names_tokens defaults [(lit "class", lit "x")])
    as (_ & _ & _ & _ & Hspace & Hword & _ & Hone).
  destruct (class_names_tokens defaults [(lit "class", lit "a b")])
    as (_ & _ & Hin & _).
  repeat apply conj.
  - apply (Hone (lit "x")).
    + reflexivity.
    + discriminate.
    + repeat constructor.
    + reflexivity.
  - apply (Hword (lit "a") (lit " b")).
    + discriminate.
    + repeat constructor.
    + right. exists 32%N, (lit "b"). split; reflexivity.
  - apply (Hspace 32%N (lit "b")). reflexivity.
  - apply (Hin (lit "b")).
    + vm_compute. auto.
    + reflexivity.
Defined.

Lemma build_level_shape_witness :
  exists level,
    build_level doc_list defaults (lit "one") the_li 0 (lit "li") [] []
    = (Ok level, [])
    /\ length level = 1%nat.
Proof.
  destruct (build_level_shape doc_list defaults (lit "one") the_li 0
              (lit "li") [] [])
    as (level & H & _ & _ & Hone & _).
  exists level. split; [exact H|]. apply Hone. left. reflexivity.
Defined.

Lemma find_unique_path_none_witness :
  (opt_threshold (merge defaults (with_threshold 1))
   < len (combinations two_candidates []) /\ @nil event = [])
  \/ (len (combinations two_candidates [])
      <= opt_threshold (merge defaults (with_threshold 1))
      /\ exists csss,
           Forall2 (fun q css =>
                      selector q = Ok css
                      /\ (2 <= length
                                 (engine_id
                                    (root_document
                                       (merge defaults (with_threshold 1)))
                                    css))%nat)
                   (sort (combinations two_candidates [])) csss
           /\ [] = [] ++ List.map QueryUnique csss).
Proof.
  apply (find_unique_path_none engine_id
           (merge defaults (with_threshold 1)) two_candidates [] []).
  vm_compute. reflexivity.
Defined.

Lemma seed_path_structure_witness :
  (1 <= length seed_spans <= length span1 + 1)%nat
  /\ (opt_seed_min_length (merge defaults (with_seed_min_length 4))
      <= len seed_spans
      \/ length seed_spans = (length span1 + 1)%nat)
  /\ (forall (j : nat) k,
        seed_spans !! j = Some k ->
        knot_level k = Z.of_nat j
        /\ exists level,
             Search.level_built doc_spans
               (merge defaults (with_seed_min_length 4)) (lit "all")
               (drop j span1) (Z.of_nat j) level
             /\ In k level)
  /\ uniquely_matched engine_spans
       (merge defaults (with_seed_min_length 4)) seed_spans.
Proof.
  apply (seed_path_structure doc_spans engine_spans
           (merge defaults (with_seed_min_length 4)) span1 (lit "all")
           [] [QueryUnique (lit ".d > .c > .b > span")] seed_spans
           (lit "span") [] []).
  - reflexivity.
  - vm_compute. reflexivity.
Defined.

Lemma seed_path_renders_as_child_chain_witness :
  List.map knot_level seed_spans
  = List.map Z.of_nat (seq 0 (length seed_spans))
  /\ selector seed_spans = Ok (Chain.child_chain seed_spans).
Proof.
  apply (seed_path_renders_as_child_chain doc_spans engine_spans
           (merge defaults (with_seed_min_length 4)) span1 (lit "all")
           [] [QueryUnique (lit ".d > .c > .b > span")] seed_spans
           (lit "span") [] []).
  - reflexivity.
  - vm_compute. reflexivity.
Defined.

Lemma candidates_of_one_kind_witness :
  (knot_penalty (mkKnot (lit "#a") (0 # 1) 0) = (0 # 1)%Q
   /\ exists element_id,
        Tree.get [(lit "id", lit "a")] (lit "id") = Some element_id
        /\ knot_name (mkKnot (lit "#a") (0 # 1) 0)
           = lit "#" ++ Escaper.css_escape element_id true)
  /\ mkKnot (lit "div") (2 # 1) 0 = mkKnot (lit "div") (2 # 1) 0.
Proof.
  destruct (candidates_of_one_kind defaults (lit "div")
              [(lit "id", lit "a")])
    as (_ & _ & Hid & _ & _ & Htag & _).
  split.
  - apply (Hid (mkKnot (lit "#a") (0 # 1) 0)). reflexivity.
  - apply (Htag (mkKnot (lit "div") (2 # 1) 0)). reflexivity.
Defined.

Lemma finder_raises_value_errors_witness :
  (Search.selects_nothing engine_id (merge defaults (with_threshold 0))
     (ValueError (lit "Selector was not found."))
   \/ (ValueError (lit "Selector was not found.")
       = ValueError (lit "Selector was not found.")
       /\ exists path,
            seed_search doc_id engine_id (merge defaults (with_threshold 0))
              the_div []
            = (Ok path, [])
            /\ truthy path = false))
  /\ (Search.selects_nothing engine_dotted (merge defaults no_options)
        (ValueError
           (lit "Can't select any node with this selector: #a.b"))
      \/ (ValueError (lit "Can't select any node with this selector: #a.b")
          = ValueError (lit "Selector was not found.")
          /\ exists path,
               seed_search doc_dotted engine_dotted
                 (merge defaults no_options) [0; 0]%nat []
               = (Ok path, [QueryUnique (lit "#a.b")])
               /\ truthy path = false)).
Proof.
  split.
  - apply (finder_raises_value_errors doc_id engine_id the_div
             (with_threshold 0) [] [] _ (lit "div")
             [(lit "id", lit "a")] []).
    + reflexivity.
    + vm_compute. reflexivity.
  - apply (finder_raises_value_errors doc_dotted engine_dotted [0; 0]%nat
             no_options [] [QueryUnique (lit "#a.b")] _ (lit "div")
             [(lit "id", lit "a.b")] []).
    + reflexivity.
    + vm_compute. reflexivity.
Defined.

Lemma optimize_returns_shortenings_witness :
  List.Forall
    (fun p => shortening seed_spans p
              /\ 2 <= len p
              /\ opt_optimized_min_length
                   (merge defaults (with_seed_min_length 4)) <= len p
              /\ matches_only engine_spans
                   (merge defaults (with_seed_min_length 4)) span1 p)
    [firstn 1 seed_spans ++ skipn 2 seed_spans;
     firstn 2 seed_spans ++ skipn 3 seed_spans].
Proof.
  apply (optimize_returns_shortenings engine_spans
           (merge defaults (with_seed_min_length 4)) seed_spans span1 []
           (snd (optimize engine_spans
                   (merge defaults (with_seed_min_length 4))
                   seed_spans span1 []))).
  vm_compute. reflexivity.
Defined.

Lemma optimize_query_budget_witness :
  unique_query_total
    (snd (optimize engine_spans (merge defaults (with_seed_and_tries 4 0))
            seed_spans span1 []))
  <= unique_query_total []
     + Z.max 0 (opt_max_number_of_tries
                  (merge defaults (with_seed_and_tries 4 0)) + 1).
Proof.
  apply (optimize_query_budget engine_spans
           (merge defaults (with_seed_and_tries 4 0)) seed_spans span1 []
           _ (fst (optimize engine_spans
                     (merge defaults (with_seed_and_tries 4 0))
                     seed_spans span1 []))).
  apply surjective_pairing.
Defined.

Lemma optimize_returns_distinct_texts_witness :
  exists keys,
    Forall2 (fun p key => selector p = Ok key)
      [firstn 1 seed_spans ++ skipn 2 seed_spans;
       firstn 2 seed_spans ++ skipn 3 seed_spans] keys
    /\ NoDup keys.
Proof.
  apply (optimize_returns_distinct_texts engine_spans
           (merge defaults (with_seed_min_length 4)) seed_spans span1 []
           (snd (optimize engine_spans
                   (merge defaults (with_seed_min_length 4))
                   seed_spans span1 []))).
  vm_compute. reflexivity.
Defined.

Lemma find_picks_cheapest_witness :
  exists best css,
    In best [firstn 1 seed_spans ++ skipn 2 seed_spans;
             firstn 2 seed_spans ++ skipn 3 seed_spans]
    /\ (forall q,
          In q [firstn 1 seed_spans ++ skipn 2 seed_spans;
                firstn 2 seed_spans ++ skipn 3 seed_spans] ->
          Qle (penalty best) (penalty q))
    /\ selector best = Ok css
    /\ engine_spans
         (root_document (merge defaults (with_seed_min_length 4))) css
       = [span1]
    /\ find doc_spans engine_spans (merge defaults (with_seed_min_length 4))
         span1 []
       = (Ok css,
          snd (find doc_spans engine_spans
                 (merge defaults (with_seed_min_length 4)) span1 [])).
Proof.
  apply (find_picks_cheapest doc_spans engine_spans
           (merge defaults (with_seed_min_length 4)) span1 seed_spans
           [firstn 1 seed_spans ++ skipn 2 seed_spans;
            firstn 2 seed_spans ++ skipn 3 seed_spans]
           [] [QueryUnique (lit ".d > .c > .b > span")]).
  - discriminate.
  - vm_compute. reflexivity.
  - vm_compute. reflexivity.
  - discriminate.
Defined.

Lemma optimize_never_costs_more_witness :
  List.Forall (fun k => Qle (0 # 1) (knot_penalty k)) seed_spans
  /\ List.Forall (fun p => Qle (penalty p) (penalty seed_spans))
       [firstn 1 seed_spans ++ skipn 2 seed_spans;
        firstn 2 seed_spans ++ skipn 3 seed_spans].
Proof.
  apply (optimize_never_costs_more doc_spans engine_spans
           (merge defaults (with_seed_min_length 4)) span1 (lit "all")
           seed_spans _ [] [QueryUnique (lit ".d > .c > .b > span")] []
           (snd (optimize engine_spans
                   (merge defaults (with_seed_min_length 4))
                   seed_spans span1 []))
           (lit "span") [] []).
  - reflexivity.
  - vm_compute. reflexivity.
  - vm_compute. reflexivity.
Defined.

Lemma narrow_mode_levels_witness :
  build_level doc_list defaults (lit "two") the_li 0 (lit "li") [] []
  = (Ok [mkKnot (lit "li") (2 # 1) 0;
         mkKnot (lit "li:nth-child(2)") (Qplus (2 # 1) (1 # 1)) 0], [])
  /\ build_level doc_list defaults (lit "one") the_li 0 (lit "li") [] []
     = (Ok [mkKnot (lit "li:nth-child(2)") (Qplus (2 # 1) (1 # 1)) 0], [])
  /\ build_level doc_list defaults (lit "none") the_li 0 (lit "li") [] []
     = (Ok [mkKnot (lit "*:nth-child(2)") (Qplus (3 # 1) (1 # 1)) 0], []).
Proof.
  apply (narrow_mode_levels doc_list defaults the_li 0 (lit "li") [] []
           (mkKnot (lit "li") (2 # 1) 0) []).
  reflexivity.
Defined.

Lemma comment_is_searched_as_its_parent_witness :
  bottom_up_search doc_comment engine_comment defaults the_comment
    (lit "all") []
  = raise_path (bottom_up_search doc_comment engine_comment defaults
                  the_body (lit "all") [])
  /\ forall p, selector (List.map raise_level p) = selector p.
Proof.
  apply (comment_is_searched_as_its_parent doc_comment engine_comment
           defaults 0%nat the_body (lit "note") (lit "all") []).
  reflexivity.
Defined.
